(** * A shallow embedding of the arbitrage bot's detection and execution core

    The development follows the Python sources: [exchanges/Order.py],
    [exchanges/rules/SizeRule.py], [exchanges/rules/ValueRule.py],
    [exchanges/Market.py], [exchanges/ScoreItem.py],
    [exchanges/ExchangeCurrency.py], [exchanges/Exchange.py], [Path.py],
    [Arbitrage.py] and [App.py], and the handling of order book
    snapshots in [exchanges/binance/Binance.py] and
    [exchanges/poloniex/Poloniex.py].

    Conventions.
    - A [decimal.Decimal] is an exact rational ([Q]); every arithmetic
      result is normalised with [Qred], comparisons are numeric
      ([Qeq_bool], [Qle_bool]), and the 28-digit rounding of the default
      decimal context is not modelled.
    - A Python object is its identity plus the fields the code reads: an
      [ExchangeCurrency] is the pair (currency code, exchange name), its
      mutable adjacency dictionary lives in an explicit store.
    - A raised exception is the [Raise] case of [result]; [ImpossibleOrder]
      is kept apart from the arithmetic traps of the decimal module. *)

From Stdlib Require Import QArith Qabs Qround ZArith List Bool Lia.
From stdpp Require Import gmap strings pretty.
Import ListNotations.

Local Open Scope Q_scope.

(** ** Exceptions as results *)

Inductive exn : Type :=
| ImpossibleOrder
| DivisionByZero
| InvalidOperation
| IndexError.

Inductive result (A : Type) : Type :=
| Ok (a : A)
| Raise (e : exn).

Arguments Ok {A} a.
Arguments Raise {A} e.

#[global] Instance result_ret : MRet result := fun A a => Ok a.

#[global] Instance result_bind : MBind result := fun A B k c =>
  match c with
  | Ok a => k a
  | Raise e => Raise e
  end.

(** ** Decimal arithmetic *)

Module Decimal.

Definition eqb (a b : Q) : bool := Qeq_bool a b.
Definition leb (a b : Q) : bool := Qle_bool a b.
Definition ltb (a b : Q) : bool := negb (Qle_bool b a).
Definition is_zero (a : Q) : bool := Qeq_bool a 0.

Definition add (a b : Q) : Q := Qred (a + b).
Definition sub (a b : Q) : Q := Qred (a - b).
Definition mul (a b : Q) : Q := Qred (a * b).

(** [a / b]: the default context traps a zero divisor. *)
Definition div (a b : Q) : result Q :=
  if is_zero b then
    if is_zero a then Raise InvalidOperation else Raise DivisionByZero
  else Ok (Qred (a / b)).

(** Integer part of a rational, rounded towards zero. *)
Definition trunc (q : Q) : Z := Z.quot (Qnum q) (Zpos (Qden q)).

(** [a % b]: the remainder has the sign of the dividend. *)
Definition rem (a b : Q) : result Q :=
  if is_zero b then Raise InvalidOperation
  else Ok (Qred (a - b * inject_Z (trunc (a / b)))).

End Decimal.

(** ** Data model *)

(** [OrderSide] of [exchanges/Order.py]. *)
Inductive OrderSide : Type := BUY | SELL.

Definition OrderSide_eqb (a b : OrderSide) : bool :=
  match a, b with
  | BUY, BUY | SELL, SELL => true
  | _, _ => false
  end.

(** An [ExchangeCurrency] object: (currency code, exchange name). *)
Definition ExchangeCurrency : Type := (string * string)%type.

Definition get_code (c : ExchangeCurrency) : string := fst c.
Definition get_exchange_name (c : ExchangeCurrency) : string := snd c.

(** The two rule classes of [exchanges/rules]. *)
Inductive Rule : Type :=
| SizeRule (minimum maximum step : Q)
| ValueRule (min_value : Q).

(** [ScoreItem]: a price level; bids store the negated price. *)
Record ScoreItem : Type := mkScoreItem {
  score : Q;
  item : Q;
  inversed : bool
}.

Definition ScoreItem_init (s i : Q) (inv : bool) : ScoreItem :=
  {| score := if inv then Qred (- s) else s; item := i; inversed := inv |}.

Definition get_score (x : ScoreItem) : Q :=
  if inversed x then Qred (- score x) else score x.

Definition get_item (x : ScoreItem) : Q := item x.

(** [ScoreItem.__lt__]. *)
Definition ScoreItem_lt (x y : ScoreItem) : bool := Decimal.ltb (score x) (score y).

(** [Market]: the fields the core reads. *)
Record Market : Type := mkMarket {
  _base : ExchangeCurrency;
  _quote : ExchangeCurrency;
  _symbol : string;
  _exchange : string;
  _makerFee : Q;
  _takerFee : Q;
  _rules : list Rule;
  _deposit : bool;
  _askHeap : list ScoreItem;
  _bidHeap : list ScoreItem
}.

(** [Market.__init__]: empty ladders, no rules. *)
Definition Market_init (base quote : ExchangeCurrency) (symbol exchange : string)
    (maker_fee taker_fee : Q) (deposit : bool) : Market :=
  {| _base := base; _quote := quote; _symbol := symbol; _exchange := exchange;
     _makerFee := maker_fee; _takerFee := taker_fee; _rules := [];
     _deposit := deposit; _askHeap := []; _bidHeap := [] |}.

Definition add_rule (m : Market) (r : Rule) : Market :=
  {| _base := _base m; _quote := _quote m; _symbol := _symbol m;
     _exchange := _exchange m; _makerFee := _makerFee m;
     _takerFee := _takerFee m; _rules := _rules m ++ [r];
     _deposit := _deposit m; _askHeap := _askHeap m; _bidHeap := _bidHeap m |}.

(** [Order]: [_id] and [_sId] are [None] until assigned. *)
Record Order : Type := mkOrder {
  _price : Q;
  _quantity : Q;
  _side : OrderSide;
  _market : Market;
  _maximum : Q;
  _minimum : Q;
  _id : option string;
  _sId : option string
}.

Definition Order_init (price quantity : Q) (side : OrderSide) (market : Market)
    (maximum_amount minimum_amount : Q) : Order :=
  {| _price := price; _quantity := quantity; _side := side; _market := market;
     _maximum := maximum_amount; _minimum := minimum_amount;
     _id := None; _sId := None |}.

Definition set_size (o : Order) (size : Q) : Order :=
  {| _price := _price o; _quantity := size; _side := _side o;
     _market := _market o; _maximum := _maximum o; _minimum := _minimum o;
     _id := _id o; _sId := _sId o |}.

Definition set_minimum (o : Order) (m : Q) : Order :=
  {| _price := _price o; _quantity := _quantity o; _side := _side o;
     _market := _market o; _maximum := _maximum o; _minimum := m;
     _id := _id o; _sId := _sId o |}.

Definition get_size (o : Order) : Q := _quantity o.
Definition get_maximum_size (o : Order) : Q := _maximum o.
Definition get_minimum_size (o : Order) : Q := _minimum o.
Definition get_price (o : Order) : Q := _price o.
Definition get_side (o : Order) : OrderSide := _side o.
Definition is_deposit (o : Order) : bool := _deposit (_market o).
Definition get_exchange (o : Order) : string := _exchange (_market o).
Definition get_taker_fees (m : Market) : Q := _takerFee m.

(** [Order.get_target_amount]. *)
Definition get_target_amount (o : Order) (include_fees : bool) : Q :=
  match _side o with
  | BUY =>
      if negb include_fees then _quantity o
      else Decimal.mul (_quantity o) (Decimal.sub 1 (get_taker_fees (_market o)))
  | SELL =>
      let value := Decimal.mul (_quantity o) (_price o) in
      if negb include_fees then value
      else Decimal.mul value (Decimal.sub 1 (get_taker_fees (_market o)))
  end.

(** [Order.get_source_amount]. *)
Definition get_source_amount (o : Order) : Q :=
  match _side o with
  | BUY => Decimal.mul (_quantity o) (_price o)
  | SELL => _quantity o
  end.

Definition get_source_currency (o : Order) : ExchangeCurrency :=
  match _side o with
  | BUY => _quote (_market o)
  | SELL => _base (_market o)
  end.

Definition get_target_currency (o : Order) : ExchangeCurrency :=
  match _side o with
  | BUY => _base (_market o)
  | SELL => _quote (_market o)
  end.

(** ** Rules *)

(** [SizeRule.make_valid]: returns the [changes] flag and the order as the
    rule left it. *)
Definition SizeRule_make_valid (minimum maximum step : Q) (order : Order)
    : result (bool * Order) :=
  if Decimal.ltb 0 minimum && Decimal.ltb (get_maximum_size order) minimum
  then Raise ImpossibleOrder
  else if (Decimal.ltb 0 maximum && Decimal.ltb maximum (get_minimum_size order))
          || Decimal.ltb (get_maximum_size order) (get_minimum_size order)
  then Raise ImpossibleOrder
  else
    let changes := false in
    let '(order, changes) :=
      if Decimal.ltb 0 minimum && Decimal.ltb (get_size order) minimum
      then (set_size order minimum, true) else (order, changes) in
    let '(order, changes) :=
      if Decimal.ltb 0 maximum && Decimal.ltb maximum (get_size order)
      then (set_size order maximum, true) else (order, changes) in
    if negb (Decimal.is_zero step) then
      mod_ ← Decimal.rem (get_size order) step;
      if negb (Decimal.is_zero mod_) then
        let first_option := Decimal.sub (get_size order) mod_ in
        if Decimal.leb (get_minimum_size order) first_option
           && Decimal.ltb first_option (get_maximum_size order)
        then Ok (true, set_size order first_option)
        else
          let second_option := Decimal.add (get_size order) mod_ in
          if Decimal.leb (get_minimum_size order) second_option
             && Decimal.ltb second_option (get_maximum_size order)
          then Ok (true, set_size order second_option)
          else Raise ImpossibleOrder
      else Ok (changes, order)
    else Ok (changes, order).

(** [ValueRule.make_valid]: always answers [False]. *)
Definition ValueRule_make_valid (min_value : Q) (order : Order)
    : result (bool * Order) :=
  let value := Decimal.mul (get_price order) (get_size order) in
  if Decimal.ltb value min_value then
    min_size ← Decimal.div min_value (get_price order);
    if Decimal.ltb (get_maximum_size order) min_size
    then Raise ImpossibleOrder
    else Ok (false, set_size order min_size)
  else Ok (false, order).

(** Dynamic dispatch of [rule.make_valid(order)]. *)
Definition Rule_make_valid (r : Rule) (order : Order) : result (bool * Order) :=
  match r with
  | SizeRule minimum maximum step => SizeRule_make_valid minimum maximum step order
  | ValueRule min_value => ValueRule_make_valid min_value order
  end.

(** ** Order validation *)

(** The [for rule in market_rules] loop of one pass. *)
Fixpoint apply_rules (market_rules : list Rule) (order : Order) (changes : bool)
    : result (bool * Order) :=
  match market_rules with
  | [] => Ok (changes, order)
  | rule :: rest =>
      '(c, order') ← Rule_make_valid rule order;
      apply_rules rest order' (c || changes)
  end.

Definition MAX : nat := 100.

(** The [while changes and (iterations < MAX)] loop followed by the final
    test [iterations >= MAX]; [remaining] is [MAX - iterations].  The
    number of passes made is returned with the order. *)
Fixpoint make_valid_while (remaining : nat) (market_rules : list Rule)
    (order : Order) (changes : bool) (iterations : nat) : result (nat * Order) :=
  match remaining with
  | O => Raise ImpossibleOrder
  | S remaining' =>
      if changes then
        '(c, order') ← apply_rules market_rules order false;
        make_valid_while remaining' market_rules order' c (S iterations)
      else Ok (iterations, order)
  end.

(** [Order.make_valid]. *)
Definition Order_make_valid (order : Order) : result Order :=
  '(_, order') ← make_valid_while MAX (_rules (_market order)) order true 0%nat;
  Ok order'.

(** [Order.set_target_amount]. *)
Definition set_target_amount (order : Order) (amount : Q) (include_fees : bool)
    : result Order :=
  let multiplier :=
    if include_fees then Decimal.sub 1 (get_taker_fees (_market order)) else 1 in
  new_size ←
    match _side order with
    | BUY => Decimal.div amount multiplier
    | SELL =>
        if Decimal.is_zero (_price order) then Raise ImpossibleOrder
        else Decimal.div amount (Decimal.mul (_price order) multiplier)
    end;
  if Decimal.ltb (_maximum order) new_size then Raise ImpossibleOrder
  else Order_make_valid (set_minimum (set_size order new_size) new_size).

(** ** The binary heap of [heapq]

    The ladders are plain lists kept in heap order by the standard
    [heapq] module, ordered by [ScoreItem.__lt__]. *)

Local Close Scope Q_scope.

(** The [while pos > startpos] loop of [_siftdown]; [fuel] bounds the
    walk towards the root. *)
Fixpoint siftdown_loop (fuel : nat) (heap : list ScoreItem)
    (startpos pos : nat) (newitem : ScoreItem) : list ScoreItem :=
  match fuel with
  | O => <[pos := newitem]> heap
  | S fuel' =>
      if startpos <? pos then
        let parentpos := (pos - 1) / 2 in
        match heap !! parentpos with
        | Some parent =>
            if ScoreItem_lt newitem parent
            then siftdown_loop fuel' (<[pos := parent]> heap) startpos parentpos newitem
            else <[pos := newitem]> heap
        | None => <[pos := newitem]> heap
        end
      else <[pos := newitem]> heap
  end.

Definition _siftdown (heap : list ScoreItem) (startpos pos : nat) : list ScoreItem :=
  match heap !! pos with
  | Some newitem => siftdown_loop pos heap startpos pos newitem
  | None => heap
  end.

(** [heappush(heap, item)]. *)
Definition heappush (heap : list ScoreItem) (x : ScoreItem) : list ScoreItem :=
  _siftdown (heap ++ [x]) 0 (length heap).

(** The [while childpos < endpos] loop of [_siftup]: the smaller child
    moves up; the position of the emptied leaf is returned. *)
Fixpoint siftup_loop (fuel : nat) (heap : list ScoreItem) (endpos pos : nat)
    : list ScoreItem * nat :=
  match fuel with
  | O => (heap, pos)
  | S fuel' =>
      let childpos := 2 * pos + 1 in
      if childpos <? endpos then
        let rightpos := childpos + 1 in
        let childpos :=
          match heap !! childpos, heap !! rightpos with
          | Some l, Some r =>
              if (rightpos <? endpos) && negb (ScoreItem_lt l r)
              then rightpos else childpos
          | _, _ => childpos
          end in
        match heap !! childpos with
        | Some child => siftup_loop fuel' (<[pos := child]> heap) endpos childpos
        | None => (heap, pos)
        end
      else (heap, pos)
  end.

Definition _siftup (heap : list ScoreItem) (pos : nat) : list ScoreItem :=
  match heap !! pos with
  | Some newitem =>
      let '(heap', leaf) := siftup_loop (length heap) heap (length heap) pos in
      _siftdown (<[leaf := newitem]> heap') pos leaf
  | None => heap
  end.

(** [heapify(x)]: [for i in reversed(range(n//2)): _siftup(x, i)]. *)
Definition heapify (x : list ScoreItem) : list ScoreItem :=
  fold_left _siftup (rev (seq 0 (length x / 2))) x.

(** ** Market ladders *)

Definition set_bidHeap (m : Market) (h : list ScoreItem) : Market :=
  {| _base := _base m; _quote := _quote m; _symbol := _symbol m;
     _exchange := _exchange m; _makerFee := _makerFee m;
     _takerFee := _takerFee m; _rules := _rules m;
     _deposit := _deposit m; _askHeap := _askHeap m; _bidHeap := h |}.

Definition set_askHeap (m : Market) (h : list ScoreItem) : Market :=
  {| _base := _base m; _quote := _quote m; _symbol := _symbol m;
     _exchange := _exchange m; _makerFee := _makerFee m;
     _takerFee := _takerFee m; _rules := _rules m;
     _deposit := _deposit m; _askHeap := h; _bidHeap := _bidHeap m |}.

(** The search [for i in range(0, len(heap)): if heap[i].get_score() ==
    price: index = i; break]. *)
Fixpoint find_index (heap : list ScoreItem) (price : Q) : option nat :=
  match heap with
  | [] => None
  | x :: rest =>
      if Decimal.eqb (get_score x) price then Some 0
      else S <$> find_index rest price
  end.

Definition set_item (x : ScoreItem) (quantity : Q) : ScoreItem :=
  {| score := score x; item := quantity; inversed := inversed x |}.

(** The body shared by [update_bid_price] ([inv = true]) and
    [update_ask_price] ([inv = false]). *)
Definition update_heap (inv : bool) (heap : list ScoreItem) (price quantity : Q)
    : list ScoreItem :=
  match find_index heap price with
  | Some index =>
      if Decimal.eqb quantity 0%Q then heapify (delete index heap)
      else if Decimal.ltb 0%Q quantity
      then alter (fun x => set_item x quantity) index heap
      else heappush heap (ScoreItem_init price quantity inv)
  | None => heappush heap (ScoreItem_init price quantity inv)
  end.

(** [Market.update_bid_price]. *)
Definition update_bid_price (m : Market) (price quantity : Q) : Market :=
  set_bidHeap m (update_heap true (_bidHeap m) price quantity).

(** [Market.update_ask_price]. *)
Definition update_ask_price (m : Market) (price quantity : Q) : Market :=
  set_askHeap m (update_heap false (_askHeap m) price quantity).

(** [Market.get_bid_price]: the top of the bid heap, or [None]. *)
Definition get_bid_price (m : Market) : option ScoreItem := head (_bidHeap m).

(** [Market.get_ask_price]. *)
Definition get_ask_price (m : Market) : option ScoreItem := head (_askHeap m).

(** [Market.reset_prices]. *)
Definition reset_prices (m : Market) : Market :=
  set_bidHeap (set_askHeap m []) [].

(** ** The market graph

    Every [ExchangeCurrency] owns a dictionary [_edges] from the
    neighbour's currency code to an edge [{currency, market}].  A Python
    dictionary keeps insertion order and the enumerator iterates over
    it, so it is an association list here; the store maps each vertex to
    its dictionary. *)

Record Edge : Type := mkEdge {
  currency : ExchangeCurrency;
  market : Market
}.

Definition Edges : Type := list (string * Edge).

Abbreviation Store := (gmap ExchangeCurrency Edges).

(** The dictionary of a vertex; a vertex never registered has none. *)
Definition edges_of (st : Store) (c : ExchangeCurrency) : Edges :=
  default [] (st !! c).

(** [key in self._edges]. *)
Fixpoint has_key (es : Edges) (key : string) : bool :=
  match es with
  | [] => false
  | (k, _) :: rest => if String.eqb k key then true else has_key rest key
  end.

(** [self._edges[key]], as [ExchangeCurrency.get_market] reads it. *)
Fixpoint lookup_edge (es : Edges) (key : string) : option Edge :=
  match es with
  | [] => None
  | (k, e) :: rest => if String.eqb k key then Some e else lookup_edge rest key
  end.

(** [ExchangeCurrency.get_market]. *)
Definition get_market (st : Store) (self : ExchangeCurrency) (target_currency : string)
    : option Edge :=
  lookup_edge (edges_of st self) target_currency.

(** [ExchangeCurrency.add_neighbour_currency]: the method calls itself on
    the target; [fuel] bounds the depth of that recursion and [None]
    means it was exhausted. *)
Fixpoint add_neighbour_currency (fuel : nat) (st : Store)
    (self target : ExchangeCurrency) (m : Market) : option Store :=
  match fuel with
  | O => None
  | S fuel' =>
      if has_key (edges_of st self) (get_code target) then Some st
      else
        let st' :=
          <[self := edges_of st self ++ [(get_code target, mkEdge target m)]]> st in
        add_neighbour_currency fuel' st' target self m
  end.

(** [Exchange.add_deposit]: the synthetic market, seeded at 1:1. *)
Definition deposit_market (origin_currency target_currency : ExchangeCurrency)
    (self_name : string) : Market :=
  update_ask_price
    (update_bid_price
       (Market_init origin_currency target_currency "deposit" self_name 0%Q 0%Q true)
       1%Q 9999999%Q)
    1%Q 9999999%Q.

(** [Exchange.add_deposit(currency, exchange)] on the exchange called
    [self_name]; [self._currencies[currency.code]] raises [KeyError] when
    the vertex does not exist, which is [None] here. *)
Definition add_deposit (st : Store) (self_name : string) (code : string)
    (exchange_name : string) : option Store :=
  let origin_currency : ExchangeCurrency := (code, self_name) in
  let target_currency : ExchangeCurrency := (code, exchange_name) in
  match st !! origin_currency, st !! target_currency with
  | Some _, Some _ =>
      add_neighbour_currency 3 st origin_currency target_currency
        (deposit_market origin_currency target_currency self_name)
  | _, _ => None
  end.

(** ** Paths *)

(** The [future_order] dictionaries of [Path._orders]. *)
Record FutureOrder : Type := mkFutureOrder {
  side : OrderSide;
  fo_market : Market
}.

Definition ExchangeCurrency_eqb (a b : ExchangeCurrency) : bool :=
  bool_decide (a = b).

(** [Path.add_currency], for the leg between the two last currencies. *)
Definition future_order (st : Store) (previous_currency cur : ExchangeCurrency)
    : option FutureOrder :=
  match get_market st previous_currency (get_code cur) with
  | Some edge =>
      let m := market edge in
      Some (mkFutureOrder
              (if ExchangeCurrency_eqb (_base m) previous_currency then SELL else BUY)
              m)
  | None => None
  end.

(** The legs of a path whose currencies are [c :: rest]. *)
Fixpoint path_orders (st : Store) (c : ExchangeCurrency) (rest : list ExchangeCurrency)
    : option (list FutureOrder) :=
  match rest with
  | [] => Some []
  | c' :: rest' =>
      match future_order st c c', path_orders st c' rest' with
      | Some x, Some xs => Some (x :: xs)
      | _, _ => None
      end
  end.

(** The recursive [helper] of [generate_all_paths].  [fuel] is
    [max_depth + 1 - depth]: the test [depth > max_depth] is [fuel = 0],
    and [depth] is always [len(current_path)].  The paths appended to
    [valid_paths] are returned in the order of the appends. *)
Fixpoint helper (st : Store) (start_currency : ExchangeCurrency) (fuel : nat)
    (current_currency : ExchangeCurrency) (current_path : list ExchangeCurrency)
    : list (list ExchangeCurrency) :=
  match fuel with
  | O => []
  | S fuel' =>
      if (1 <? length current_path)
         && String.eqb (get_code start_currency) (get_code current_currency)
      then [current_path]
      else
        flat_map
          (fun neighbor =>
             match get_market st current_currency neighbor with
             | None => []
             | Some edge =>
                 let neighbor_currency := currency edge in
                 if (length current_path =? 1) && _deposit (market edge) then []
                 else if bool_decide (neighbor_currency ∈ current_path)
                         && negb (bool_decide (head current_path = Some neighbor_currency))
                 then []
                 else helper st start_currency fuel' neighbor_currency
                        (current_path ++ [neighbor_currency])
             end)
          (map fst (edges_of st current_currency))
  end.

(** [generate_all_paths(start_currency, max_depth)]: the currency lists of
    the returned [Path] objects. *)
Definition generate_all_paths (st : Store) (start_currency : ExchangeCurrency)
    (max_depth : nat) : list (list ExchangeCurrency) :=
  helper st start_currency max_depth start_currency [start_currency].

(** ** The path order generator *)

(** The loop [for i in reversed(range(0, len(orders)))] of the reduce
    branch of [Path.generate_orders]: every copy is re-solved against
    [orders[0].get_source_amount()], the source amount of the first order
    of the list being revised. *)
Fixpoint revise_orders (first_source : Q) (reversed_orders tmp_orders : list Order)
    : result (list Order) :=
  match reversed_orders with
  | [] => Ok tmp_orders
  | o :: rest =>
      order_copy ←
        (if is_deposit o then Ok (set_size o first_source)
         else set_target_amount o first_source true);
      revise_orders first_source rest (order_copy :: tmp_orders)
  end.

(** The same loop in [Arbitrage.arbitrage_helper]: every copy is re-solved
    against [tmp_order_path[0].get_source_amount()], the source amount of
    the order that follows it in the revised chain. *)
Fixpoint arbitrage_revise_orders (reversed_orders tmp_order_path : list Order)
    : result (list Order) :=
  match reversed_orders with
  | [] => Ok tmp_order_path
  | o :: rest =>
      match tmp_order_path with
      | [] => Raise IndexError
      | next :: _ =>
          order_copy ←
            (if is_deposit o then Ok (set_size o (get_source_amount next))
             else set_target_amount o (get_source_amount next) true);
          arbitrage_revise_orders rest (order_copy :: tmp_order_path)
      end
  end.

(** [except ImpossibleOrder: return None]; any other exception escapes. *)
Definition or_none {A : Type} (c : result A) (k : A -> result (option (list Order)))
    : result (option (list Order)) :=
  match c with
  | Ok a => k a
  | Raise ImpossibleOrder => Ok None
  | Raise e => Raise e
  end.

(** The body of [for x in self._orders] in [Path.generate_orders]. *)
Fixpoint generate_orders_loop (legs : list FutureOrder) (orders : list Order)
    (current_amount : Q) : result (option (list Order)) :=
  match legs with
  | [] => Ok (Some orders)
  | x :: rest =>
      let m := fo_market x in
      match (match side x with BUY => get_ask_price m | SELL => get_bid_price m end) with
      | None => Ok None
      | Some top =>
          let max_size := get_item top in
          let price := get_score top in
          quantity ←
            match side x with
            | BUY => Decimal.div current_amount price
            | SELL => Ok current_amount
            end;
          let reduce := Decimal.ltb max_size quantity in
          let quantity := if reduce then max_size else quantity in
          or_none (Order_make_valid (Order_init price quantity (side x) m quantity 0%Q))
            (fun order =>
               if reduce then
                 or_none
                   (match orders with
                    | [] => Ok [order]
                    | first :: _ =>
                        revise_orders (get_source_amount first) (rev orders) [order]
                    end)
                   (fun tmp_orders =>
                      generate_orders_loop rest tmp_orders (get_target_amount order true))
               else
                 generate_orders_loop rest (orders ++ [order])
                   (get_target_amount order true))
      end
  end.

(** [Path.generate_orders(initial_amount)]. *)
Definition generate_orders (legs : list FutureOrder) (initial_amount : Q)
    : result (option (list Order)) :=
  generate_orders_loop legs [] initial_amount.

(** ** The executor: parallelization *)

(** Balances of the vertices; a fresh [ExchangeCurrency] holds [Decimal(0)]. *)
Abbreviation Balances := (gmap ExchangeCurrency Q).

Definition get_balance (bal : Balances) (c : ExchangeCurrency) : Q :=
  default 0%Q (bal !! c).

(** [Order.can_be_executed]. *)
Definition can_be_executed (bal : Balances) (o : Order) : bool :=
  Decimal.leb (get_source_amount o) (get_balance bal (get_source_currency o)).

(** First loop of [App.parallelize_orders], inside one turn of the outer
    [while]: [tmp_orders] collects the orders up to the next deposit; the
    deposit itself is stepped over by [i += 1]. *)
Fixpoint split_at_deposits (tmp_orders orders : list Order) : list (list Order) :=
  match orders with
  | [] => [tmp_orders]
  | o :: rest =>
      if is_deposit o then
        tmp_orders :: match rest with
                      | [] => []
                      | _ :: _ => split_at_deposits [] rest
                      end
      else split_at_deposits (tmp_orders ++ [o]) rest
  end.

(** The whole first loop: the outer [while i < len(orders)] does not run
    on an empty list. *)
Definition between_deposits (orders : list Order) : list (list Order) :=
  match orders with
  | [] => []
  | _ :: _ => split_at_deposits [] orders
  end.

(** Second loop, for one list of the first result: an executable order
    closes the chain being built and starts the next one. *)
Fixpoint split_at_executable (bal : Balances) (tmp_orders orders : list Order)
    : list (list Order) :=
  match orders with
  | [] => [tmp_orders]
  | o :: rest =>
      if can_be_executed bal o then
        (if 0 <? length tmp_orders then [tmp_orders] else [])
        ++ split_at_executable bal [o] rest
      else split_at_executable bal (tmp_orders ++ [o]) rest
  end.

(** [App.parallelize_orders]. *)
Definition parallelize_orders (bal : Balances) (orders : list Order)
    : list (list Order) :=
  flat_map (split_at_executable bal []) (between_deposits orders).

(** ** Admission control

    [App.arbitrage_worker] runs in the scanner thread and
    [App.on_order_update] in the adapters' threads, so their statements
    interleave.  The shared counter [currentSequences] is read and
    written back by two separate steps on each side ([+= 1] and [-= 1]
    are not atomic); an event that is not enabled leaves the state as it
    is. *)

Inductive OrderStatus : Type := REJECTED | PENDING | COMPLETED.

Record Settings : Type := mkSettings {
  multipleSequences : bool;
  maximumSequences : Z;
  timeBetweenSequences : Q
}.

(** Where the scanner thread stands. *)
Inductive ScannerPc : Type :=
| Idle
| Scanning
| Loaded (read : Z).

(** Where a callback stands inside [with self.sequencesMutex]. *)
Inductive CallbackPc : Type :=
| CbIdle
| CbLoaded (sequence_id : string) (read : Z).

Record AppState : Type := mkAppState {
  currentSequences : Z;
  lastSequenceStarted : Q;
  sequences : gmap string Z;
  scanner : ScannerPc;
  callback : CallbackPc
}.

(** The fields as [App.__init__] sets them. *)
Definition App_init : AppState :=
  {| currentSequences := 0%Z; lastSequenceStarted := 0%Q; sequences := ∅;
     scanner := Idle; callback := CbIdle |}.

(** The expression assigned to [can_scan]. *)
Definition can_scan (cfg : Settings) (st : AppState) (now : Q) : bool :=
  (negb (multipleSequences cfg) && (currentSequences st =? 0)%Z)
  || (multipleSequences cfg
      && Decimal.ltb (timeBetweenSequences cfg)
           (Decimal.sub now (lastSequenceStarted st))
      && ((maximumSequences cfg =? 0)%Z
          || (currentSequences st <? maximumSequences cfg)%Z)).

Inductive Event : Type :=
| ScanCheck (now : Q)
| ScanRegister (sequence_id : string) (legs : Z)
| ScanAbort
| ScanLoad (now : Q)
| ScanStore
| UpdateBegin (sequence_id : option string) (status : OrderStatus)
| UpdateEnd.

Definition set_scanner (st : AppState) (pc : ScannerPc) : AppState :=
  {| currentSequences := currentSequences st;
     lastSequenceStarted := lastSequenceStarted st;
     sequences := sequences st; scanner := pc; callback := callback st |}.

Definition step (cfg : Settings) (st : AppState) (e : Event) : AppState :=
  match e, scanner st, callback st with
  | ScanCheck now, Idle, _ =>
      (* a market is popped and [can_scan] evaluated *)
      if can_scan cfg st now then set_scanner st Scanning else st
  | ScanRegister sequence_id legs, Scanning, _ =>
      (* [self.sequences[sequence_id] = 0] and the [+= 1] of every leg *)
      {| currentSequences := currentSequences st;
         lastSequenceStarted := lastSequenceStarted st;
         sequences := <[sequence_id := legs]> (sequences st);
         scanner := Scanning; callback := callback st |}
  | ScanAbort, Scanning, _ =>
      (* no solution, or the [except] branch *)
      set_scanner st Idle
  | ScanLoad now, Scanning, _ =>
      (* [self.lastSequenceStarted = time.time()], then the read of [+= 1] *)
      {| currentSequences := currentSequences st;
         lastSequenceStarted := now;
         sequences := sequences st;
         scanner := Loaded (currentSequences st); callback := callback st |}
  | ScanStore, Loaded read, _ =>
      {| currentSequences := (read + 1)%Z;
         lastSequenceStarted := lastSequenceStarted st;
         sequences := sequences st; scanner := Idle; callback := callback st |}
  | UpdateBegin (Some sequence_id) COMPLETED, _, CbIdle =>
      match sequences st !! sequence_id with
      | Some remaining =>
          let st' :=
            {| currentSequences := currentSequences st;
               lastSequenceStarted := lastSequenceStarted st;
               sequences := <[sequence_id := (remaining - 1)%Z]> (sequences st);
               scanner := scanner st; callback := CbIdle |} in
          if (remaining - 1 <=? 0)%Z then
            {| currentSequences := currentSequences st;
               lastSequenceStarted := lastSequenceStarted st;
               sequences := sequences st';
               scanner := scanner st;
               callback := CbLoaded sequence_id (currentSequences st) |}
          else st'
      | None => st
      end
  | UpdateEnd, _, CbLoaded sequence_id read =>
      {| currentSequences := (read - 1)%Z;
         lastSequenceStarted := lastSequenceStarted st;
         sequences := delete sequence_id (sequences st);
         scanner := scanner st; callback := CbIdle |}
  | _, _, _ => st
  end.

Definition run (cfg : Settings) (events : list Event) : AppState :=
  fold_left (step cfg) events App_init.

(** * Predicates used in the statements *)

(** A rule only ever calls [order.set_size]: [o'] is [o] up to its quantity. *)
Definition only_size_changed (o o' : Order) : Prop :=
  o' = set_size o (_quantity o').

(** * Concrete scenarios *)

(** A market of exchange [E1] between currencies [A] and [B], with the
    given rules and no fees, as the unit tests build theirs. *)
Definition market_with_rules (rules : list Rule) : Market :=
  fold_left add_rule rules
    (Market_init ("A", "E1") ("B", "E1") "AB" "E1" 0%Q 0%Q false).

(** A quantity between two steps, with the lower step below the order's
    minimum size. *)
Definition order_between_steps : Order :=
  Order_init 1%Q (23 # 10)%Q BUY (market_with_rules [SizeRule 0%Q 0%Q 1%Q])
    10%Q (22 # 10)%Q.

(** An order below the minimum notional of its market. *)
Definition order_below_notional (minimum_amount : Q) : Order :=
  Order_init 1%Q 1%Q BUY
    (market_with_rules [SizeRule 0%Q 0%Q 1%Q; ValueRule (5 # 2)%Q])
    10%Q minimum_amount.




(** A triangle A -> B -> C -> A on one exchange, every leg a sell:
    [A/B] bid 4 (size 100), [B/C] bid 0.5 (size 100), [C/A] bid 1 with
    only 5 units at the top of the book.  No fees, no rules. *)
Definition sell_market (base quote : string) (price size : Q) : Market :=
  update_bid_price
    (Market_init (base, "E1") (quote, "E1") (base ++ quote) "E1" 0%Q 0%Q false)
    price size.

Definition capped_triangle : list FutureOrder :=
  [ mkFutureOrder SELL (sell_market "A" "B" 4%Q 100%Q);
    mkFutureOrder SELL (sell_market "B" "C" (1 # 2)%Q 100%Q);
    mkFutureOrder SELL (sell_market "C" "A" 1%Q 5%Q) ].

(** The orders of the first two legs for 10 A, before the third leg is
    found to be capped, and the capped third order. *)
Definition triangle_order_1 : Order :=
  Order_init 4%Q 10%Q SELL (sell_market "A" "B" 4%Q 100%Q) 10%Q 0%Q.

Definition triangle_order_2 : Order :=
  Order_init (1 # 2)%Q 40%Q SELL (sell_market "B" "C" (1 # 2)%Q 100%Q) 40%Q 0%Q.

Definition triangle_order_3 : Order :=
  Order_init 1%Q 5%Q SELL (sell_market "C" "A" 1%Q 5%Q) 5%Q 0%Q.

(** An order funds its successor when its target amount after fees
    covers the successor's source amount. *)
Definition funds (o next : Order) : Prop :=
  (get_source_amount next <= get_target_amount o true)%Q.

Fixpoint chain_funded (orders : list Order) : Prop :=
  match orders with
  | o :: ((next :: _) as rest) => funds o next /\ chain_funded rest
  | _ => True
  end.


(** A market whose ladders are still empty. *)
Definition empty_market : Market :=
  Market_init ("A", "E1") ("B", "E1") "AB" "E1" 0%Q 0%Q false.








(** C8 as the specification words it: after [add_deposit] the source
    vertex has the entry to the target vertex over the deposit market,
    and the target vertex has no entry back to the source over it. *)
Definition deposit_is_directional (st : Store) (self_name code exchange_name : string)
    : Prop :=
  let origin_currency : ExchangeCurrency := (code, self_name) in
  let target_currency : ExchangeCurrency := (code, exchange_name) in
  let m := deposit_market origin_currency target_currency self_name in
  forall st',
    add_deposit st self_name code exchange_name = Some st' ->
    In (code, mkEdge target_currency m) (edges_of st' origin_currency)
    /\ forall key, ~ In (key, mkEdge origin_currency m) (edges_of st' target_currency).

(** Two exchanges that both list BTC, with no edge yet. *)
Definition two_exchanges : Store :=
  <[("BTC", "Poloniex") := []]> (<[("BTC", "Binance") := []]> ∅).

(** Poloniex's BTC already has a deposit edge to Kraken. *)
Definition three_exchanges : Store :=
  default ∅
    (add_deposit (<[("BTC", "Kraken") := []]> two_exchanges) "Poloniex" "BTC" "Kraken").

(** The number of sequences the settings allow at once: one without
    [multipleSequences], [maximumSequences] with it. *)
Definition admission_bound (cfg : Settings) : Z :=
  if multipleSequences cfg then maximumSequences cfg else 1%Z.

(** What holds between any two statements of the two threads: the counter
    is within the bound, a scanner that passed [can_scan] sees (or has
    read) a value below it, and a callback about to write back has read a
    value within it. *)
Definition admission_inv (cfg : Settings) (st : AppState) : Prop :=
  (currentSequences st <= admission_bound cfg)%Z
  /\ match scanner st with
     | Idle => True
     | Scanning => (currentSequences st < admission_bound cfg)%Z
     | Loaded read => (read < admission_bound cfg)%Z
     end
  /\ match callback st with
     | CbIdle => True
     | CbLoaded _ read => (read <= admission_bound cfg)%Z
     end.

(** One sequence at a time. *)
Definition single_sequence : Settings :=
  {| multipleSequences := false; maximumSequences := 0%Z;
     timeBetweenSequences := 0%Q |}.

(** At most two sequences, ten seconds apart. *)
Definition two_sequences : Settings :=
  {| multipleSequences := true; maximumSequences := 2%Z;
     timeBetweenSequences := 10%Q |}.

(** A sequence of one leg is admitted at time [now]. *)
Definition admit_sequence (sequence_id : string) (now : Q) : list Event :=
  [ScanCheck now; ScanRegister sequence_id 1%Z; ScanLoad now; ScanStore].

(** The only order of a sequence completes. *)
Definition complete_sequence (sequence_id : string) : list Event :=
  [UpdateBegin (Some sequence_id) COMPLETED; UpdateEnd].

(** The time of the [k]-th of a series of admissions that are more than
    [timeBetweenSequences] apart. *)
Definition spaced_time (cfg : Settings) (k : nat) : Q :=
  (inject_Z (Z.of_nat k) * (Qabs (timeBetweenSequences cfg) + 1))%Q.

(** [n] sequences admitted one after the other, none of which completes. *)
Fixpoint spaced_admissions (cfg : Settings) (n : nat) : list Event :=
  match n with
  | O => []
  | S k =>
      spaced_admissions cfg k
      ++ admit_sequence (pretty (S k)) (spaced_time cfg (S k))
  end.

(** Any number of sequences, five seconds apart. *)
Definition unlimited_sequences : Settings :=
  {| multipleSequences := true; maximumSequences := 0%Z;
     timeBetweenSequences := 5%Q |}.

(** ** The heap order

    [heapq] keeps [heap[(j - 1) // 2] <= heap[j]] for every position
    [j > 0].  [ordered_from k h] asks it of the positions whose parent is
    at [k] or later: it is the state of the list when [heapify] has
    treated the positions from [k] on. *)
Definition ordered_from (k : nat) (h : list ScoreItem) : Prop :=
  forall j xj xp,
    0 < j -> k <= (j - 1) / 2 ->
    h !! j = Some xj -> h !! ((j - 1) / 2) = Some xp ->
    (score xp <= score xj)%Q.

Definition heap_ordered (h : list ScoreItem) : Prop := ordered_from 0 h.

(** Position [j] lies in the subtree rooted at [k]. *)
Inductive descends (k : nat) : nat -> Prop :=
| descends_here : descends k k
| descends_below j : 0 < j -> descends k ((j - 1) / 2) -> descends k j.

(** The state of [_siftdown] when the item it carries would sit at [pos]
    of [g]: only the pair of [pos] and its parent may be out of order,
    and the parent of [pos] is below its children. *)
Definition siftdown_inv (k : nat) (g : list ScoreItem) (pos : nat) : Prop :=
  (forall j xj xp,
      0 < j -> k <= (j - 1) / 2 -> j <> pos ->
      g !! j = Some xj -> g !! ((j - 1) / 2) = Some xp ->
      (score xp <= score xj)%Q)
  /\ (k < pos ->
      forall c xc xp,
        0 < c -> (c - 1) / 2 = pos ->
        g !! c = Some xc -> g !! ((pos - 1) / 2) = Some xp ->
        (score xp <= score xc)%Q).

(** The state of the first loop of [_siftup], the hole being at [pos]. *)
Definition siftup_inv (k : nat) (h : list ScoreItem) (pos : nat) : Prop :=
  (forall j xj xp,
      0 < j -> k <= (j - 1) / 2 -> j <> pos -> (j - 1) / 2 <> pos ->
      h !! j = Some xj -> h !! ((j - 1) / 2) = Some xp ->
      (score xp <= score xj)%Q)
  /\ (k < pos ->
      forall c xc xp,
        0 < c -> (c - 1) / 2 = pos ->
        h !! c = Some xc -> h !! ((pos - 1) / 2) = Some xp ->
        (score xp <= score xc)%Q).


(** ** Ladders as the feeds build them *)

(** What the ladder code maintains: the heap order, and levels built for
    the side of the ladder (the bids are stored inversed). *)
Definition ladder_ok (inv : bool) (h : list ScoreItem) : Prop :=
  heap_ordered h /\ Forall (fun x => inversed x = inv) h.

(** The prices of the levels of a ladder, in lowest terms. *)
Definition prices (h : list ScoreItem) : list Q :=
  (fun x => Qred (get_score x)) <$> h.

(** A series of calls [update_bid_price(price, quantity)]. *)
Definition apply_bid_updates (m : Market) (updates : list (Q * Q)) : Market :=
  fold_left (fun m u => update_bid_price m u.1 u.2) updates m.

(** A series of calls [update_ask_price(price, quantity)]. *)
Definition apply_ask_updates (m : Market) (updates : list (Q * Q)) : Market :=
  fold_left (fun m u => update_ask_price m u.1 u.2) updates m.

(** Two bids at the prices 3 and 5. *)
Definition two_bids : list ScoreItem :=
  update_heap true (update_heap true [] 3%Q 1%Q) 5%Q 2%Q.

(** ** Compliance with the market rules *)

(** What a [SizeRule] checks of a size: at least [minimum] and at most
    [maximum] when these are set, and a multiple of [step] when it is. *)
Definition size_compliant (minimum maximum step size : Q) : Prop :=
  ((0 < minimum)%Q -> (minimum <= size)%Q)
  /\ ((0 < maximum)%Q -> (size <= maximum)%Q)
  /\ (~ (step == 0)%Q ->
      exists mod_, Decimal.rem size step = Ok mod_ /\ (mod_ == 0)%Q).

(** What each rule checks of an order. *)
Definition complies (r : Rule) (o : Order) : Prop :=
  match r with
  | SizeRule minimum maximum step =>
      size_compliant minimum maximum step (get_size o)
  | ValueRule min_value => (min_value <= get_price o * get_size o)%Q
  end.

Definition is_size_rule (r : Rule) : bool :=
  match r with
  | SizeRule _ _ _ => true
  | ValueRule _ => false
  end.

(** An order of 2.3 on a market that trades in steps of 0.5, with room
    between 2 and 10. *)
Definition order_on_half_steps : Order :=
  Order_init 1%Q (23 # 10)%Q SELL
    (market_with_rules [SizeRule (1 # 2)%Q 0%Q (1 # 2)%Q]) 10%Q 2%Q.

(** An order of 2.5 that complies with the steps of 0.5. *)
Definition order_on_a_step : Order :=
  set_size order_on_half_steps (5 # 2)%Q.


(** ** Walks of the market graph *)

(** The vertex [a] has an entry that leads to [b]; as the first move of
    a path the entry may not be a deposit. *)
Definition linked (st : Store) (first : bool) (a b : ExchangeCurrency) : Prop :=
  exists key edge,
    key ∈ (edges_of st a).*1
    /\ get_market st a key = Some edge
    /\ currency edge = b
    /\ (first = true -> _deposit (market edge) = false).

(** Every vertex of [a :: vertices] is linked to the next one. *)
Fixpoint walk (st : Store) (first : bool) (a : ExchangeCurrency)
    (vertices : list ExchangeCurrency) : Prop :=
  match vertices with
  | [] => True
  | b :: rest => linked st first a b /\ walk st false b rest
  end.

(** The paths of at most [max_depth] vertices that leave [S] over an
    entry that is not a deposit, go through pairwise distinct vertices
    whose code is not the code of [S], and stop at the first vertex that
    has the code of [S] again. *)
Definition bounded_code_cycle (st : Store) (S : ExchangeCurrency)
    (max_depth : nat) (p : list ExchangeCurrency) : Prop :=
  exists mid last,
    p = S :: mid ++ [last]
    /\ length p <= max_depth
    /\ get_code last = get_code S
    /\ Forall (fun v => get_code v <> get_code S) mid
    /\ NoDup mid
    /\ walk st true S (mid ++ [last]).

(** ** Graphs as the exchanges build them *)

(** Every entry is filed under the code of the vertex it leads to. *)
Definition well_keyed (st : Store) : Prop :=
  forall v key edge,
    get_market st v key = Some edge -> key = get_code (currency edge).

(** The market of every entry trades the vertex that holds the entry
    against the vertex the entry leads to. *)
Definition edges_join_their_ends (st : Store) : Prop :=
  forall v key edge,
    get_market st v key = Some edge ->
    (_base (market edge) = v /\ _quote (market edge) = currency edge)
    \/ (_quote (market edge) = v /\ _base (market edge) = currency edge).

(** USDT, BTC and ETH on one exchange, with the three markets between
    them, added as [fetch_and_create_markets] does. *)
Definition triangle_graph : Store :=
  let usdt : ExchangeCurrency := ("USDT", "Binance") in
  let btc : ExchangeCurrency := ("BTC", "Binance") in
  let eth : ExchangeCurrency := ("ETH", "Binance") in
  let vertices : Store := <[eth := []]> (<[btc := []]> (<[usdt := []]> ∅)) in
  default ∅
    (st1 ← add_neighbour_currency 3 vertices btc usdt
             (Market_init btc usdt "BTCUSDT" "Binance" 0%Q 0%Q false);
     st2 ← add_neighbour_currency 3 st1 eth usdt
             (Market_init eth usdt "ETHUSDT" "Binance" 0%Q 0%Q false);
     add_neighbour_currency 3 st2 eth btc
       (Market_init eth btc "ETHBTC" "Binance" 0%Q 0%Q false)).

(** The two exchanges once the BTC deposit from Poloniex to Binance is
    installed. *)
Definition two_exchanges_joined : Store :=
  default ∅ (add_deposit two_exchanges "Poloniex" "BTC" "Binance").

(** The same graph once Poloniex has its BTC/USDT market as well. *)
Definition two_exchanges_traded : Store :=
  default ∅
    (add_neighbour_currency 3 two_exchanges_joined
       ("BTC", "Poloniex") ("USDT", "Poloniex")
       (Market_init ("BTC", "Poloniex") ("USDT", "Poloniex")
          "USDT_BTC" "Poloniex" 0%Q 0%Q false)).

(** ** Orders against the books *)

(** The level [Path.generate_orders] reads for a leg: the best ask to
    buy, the best bid to sell. *)
Definition leg_price (x : FutureOrder) : option ScoreItem :=
  match side x with
  | BUY => get_ask_price (fo_market x)
  | SELL => get_bid_price (fo_market x)
  end.

(** The order [o] is an order for the leg [x]: on its side and market, at
    the price of the level read for it, for no more than the size of
    that level. *)
Definition order_for_leg (x : FutureOrder) (o : Order) : Prop :=
  _side o = side x
  /\ _market o = fo_market x
  /\ exists top,
       leg_price x = Some top
       /\ _price o = get_score top
       /\ (_maximum o <= get_item top)%Q
       /\ (is_deposit o = false -> (_quantity o <= _maximum o)%Q).

(** What a revision keeps of an order. *)
Definition revised (o o' : Order) : Prop :=
  _side o' = _side o /\ _market o' = _market o /\ _price o' = _price o
  /\ _maximum o' = _maximum o
  /\ (is_deposit o = false -> (_quantity o' <= _maximum o')%Q).



(** Two deposits follow each other in a list of orders. *)
Definition adjacent_deposits (orders : list Order) : Prop :=
  exists before d1 d2 after,
    orders = before ++ d1 :: d2 :: after
    /\ is_deposit d1 = true /\ is_deposit d2 = true.

(** The list of orders begins with a deposit. *)
Definition leading_deposit (orders : list Order) : Prop :=
  exists d rest, orders = d :: rest /\ is_deposit d = true.

(** ** Scanning the paths of a market *)

(** An entry of the list [Market.scan_paths] returns. *)
Record Solution : Type := mkSolution {
  profit : Q;
  orders : list Order
}.


(** The choice of [arbitrage_worker] among the solutions: the loop that
    keeps [highest_profit] and [highest_solution], started at [-1] and
    [None]. *)
Definition keep_highest (acc : Q * option (list Order)) (x : Solution)
    : Q * option (list Order) :=
  if Decimal.ltb acc.1 (profit x) then (profit x, Some (orders x)) else acc.

Definition highest_solution (solutions : list Solution) : option (list Order) :=
  (fold_left keep_highest solutions ((-1)%Q, None)).2.


(** ** Depth snapshots

    What the adapters do with a full order book ([on_msg] of
    [BinanceExchange.create_market_stream], and the message of type [i]
    of the Poloniex stream): the ladders are reset, then every ask and
    every bid of the message is applied. *)
Definition on_depth_snapshot (m : Market) (asks bids : list (Q * Q)) : Market :=
  apply_bid_updates (apply_ask_updates (reset_prices m) asks) bids.

(** The levels of a snapshot have pairwise distinct prices. *)
Definition distinct_levels (levels : list (Q * Q)) : Prop :=
  NoDup ((fun u => Qred u.1) <$> levels).



(** * Facts about the embedding *)

(** ** Decimal comparisons and arithmetic *)

Section DecimalFacts.

Local Open Scope Q_scope.

Lemma Decimal_eqb_true a b : Decimal.eqb a b = true <-> a == b.
Proof. apply Qeq_bool_iff. Qed.

Lemma Decimal_leb_true a b : Decimal.leb a b = true <-> a <= b.
Proof. apply Qle_bool_iff. Qed.

Lemma Decimal_ltb_true a b : Decimal.ltb a b = true <-> a < b.
Proof.
  unfold Decimal.ltb. rewrite negb_true_iff. split.
  - intros H. apply Qnot_le_lt. intros Hle.
    apply Qle_bool_iff in Hle. congruence.
  - intros H. destruct (Qle_bool b a) eqn:E; [|reflexivity].
    apply Qle_bool_iff in E. exfalso. exact (Qlt_not_le _ _ H E).
Qed.

Lemma Decimal_ltb_false a b : Decimal.ltb a b = false <-> b <= a.
Proof.
  unfold Decimal.ltb. rewrite negb_false_iff. apply Qle_bool_iff.
Qed.

Lemma Decimal_is_zero_true a : Decimal.is_zero a = true <-> a == 0.
Proof. apply Qeq_bool_iff. Qed.


Lemma Decimal_add_correct a b : Decimal.add a b == a + b.
Proof. apply Qred_correct. Qed.

Lemma Decimal_sub_correct a b : Decimal.sub a b == a - b.
Proof. apply Qred_correct. Qed.




Lemma Decimal_div_not_impossible a b :
  Decimal.div a b <> Raise ImpossibleOrder.
Proof.
  unfold Decimal.div.
  destruct (Decimal.is_zero b); [destruct (Decimal.is_zero a)|]; discriminate.
Qed.

End DecimalFacts.

(** ** What the rules may touch *)

Section ValidationFacts.

Local Open Scope Q_scope.

Lemma only_size_changed_refl o : only_size_changed o o.
Proof. unfold only_size_changed. now destruct o. Qed.

Lemma only_size_changed_set_size o q : only_size_changed o (set_size o q).
Proof. reflexivity. Qed.

Lemma only_size_changed_trans o1 o2 o3 :
  only_size_changed o1 o2 -> only_size_changed o2 o3 -> only_size_changed o1 o3.
Proof.
  unfold only_size_changed. intros H12 H23.
  rewrite H23 at 1. rewrite H12. reflexivity.
Qed.

Lemma only_size_changed_fields o o' :
  only_size_changed o o' ->
  _price o' = _price o /\ _side o' = _side o /\ _market o' = _market o
  /\ _maximum o' = _maximum o /\ _minimum o' = _minimum o.
Proof. unfold only_size_changed. intros ->. now cbn. Qed.

Lemma SizeRule_make_valid_inv minimum maximum step_ o c o' :
  SizeRule_make_valid minimum maximum step_ o = Ok (c, o') ->
  only_size_changed o o'
  /\ (_minimum o <= _quantity o -> _minimum o <= _quantity o')
  /\ (c = false -> o' = o).
Proof.
  unfold SizeRule_make_valid, get_size, get_maximum_size, get_minimum_size.
  destruct (Decimal.ltb 0 minimum && Decimal.ltb (_maximum o) minimum) eqn:G1;
    [discriminate|].
  destruct ((Decimal.ltb 0 maximum && Decimal.ltb maximum (_minimum o))
            || Decimal.ltb (_maximum o) (_minimum o)) eqn:G2; [discriminate|].
  apply orb_false_iff in G2 as [G2 G3].
  set (p1 := if Decimal.ltb 0 minimum && Decimal.ltb (_quantity o) minimum
             then (set_size o minimum, true) else (o, false)).
  assert (P1 : only_size_changed o p1.1
               /\ (_minimum o <= _quantity o -> _minimum o <= _quantity p1.1)
               /\ (p1.2 = false -> p1.1 = o)).
  { subst p1.
    destruct (Decimal.ltb 0 minimum && Decimal.ltb (_quantity o) minimum) eqn:E;
      cbn.
    - split; [reflexivity|]. split; [|discriminate].
      apply andb_true_iff in E as [_ E]. apply Decimal_ltb_true in E.
      intros H. apply Qlt_le_weak. eapply Qle_lt_trans; eassumption.
    - split; [apply only_size_changed_refl|]. tauto. }
  destruct p1 as [o1 c1]. cbn in P1. destruct P1 as (S1 & M1 & U1).
  set (p2 := if Decimal.ltb 0 maximum && Decimal.ltb maximum (_quantity o1)
             then (set_size o1 maximum, true) else (o1, c1)).
  assert (P2 : only_size_changed o p2.1
               /\ (_minimum o <= _quantity o -> _minimum o <= _quantity p2.1)
               /\ (p2.2 = false -> p2.1 = o)).
  { subst p2.
    destruct (Decimal.ltb 0 maximum && Decimal.ltb maximum (_quantity o1)) eqn:E;
      cbn.
    - split.
      { eapply only_size_changed_trans; [exact S1|reflexivity]. }
      split; [|discriminate].
      intros _. apply andb_true_iff in E as [E _]. rewrite E in G2. cbn in G2.
      now apply Decimal_ltb_false in G2.
    - tauto. }
  destruct p2 as [o2 c2]. cbn in P2. destruct P2 as (S2 & M2 & U2).
  pose proof (only_size_changed_fields _ _ S2) as (_ & _ & _ & Hmax & Hmin).
  destruct (negb (Decimal.is_zero step_)); [|intros [= <- <-]; tauto].
  destruct (Decimal.rem (_quantity o2) step_) as [mod_|e]; cbn; [|discriminate].
  destruct (negb (Decimal.is_zero mod_)); [|intros [= <- <-]; tauto].
  rewrite Hmax, Hmin.
  destruct (Decimal.leb (_minimum o) (Decimal.sub (_quantity o2) mod_)
            && Decimal.ltb (Decimal.sub (_quantity o2) mod_) (_maximum o)) eqn:F.
  - intros [= <- <-]. split.
    { eapply only_size_changed_trans; [exact S2|reflexivity]. }
    split; [|discriminate]. intros _.
    apply andb_true_iff in F as [F _]. now apply Decimal_leb_true in F.
  - destruct (Decimal.leb (_minimum o) (Decimal.add (_quantity o2) mod_)
              && Decimal.ltb (Decimal.add (_quantity o2) mod_) (_maximum o)) eqn:F2;
      [|discriminate].
    intros [= <- <-]. split.
    { eapply only_size_changed_trans; [exact S2|reflexivity]. }
    split; [|discriminate]. intros _.
    apply andb_true_iff in F2 as [F2 _]. now apply Decimal_leb_true in F2.
Qed.






End ValidationFacts.

(** * The claims *)

Section OrderValidation.

Local Open Scope Q_scope.

(** C10: an order whose market has no rules -- and a deposit market is
    built with none -- is validated in a single pass of the loop,
    without raising, and comes back with every field as it was. *)
Theorem make_valid_without_rules :
  (forall origin target name, _rules (deposit_market origin target name) = [])
  /\ (forall order : Order,
        _rules (_market order) = [] ->
        make_valid_while MAX (_rules (_market order)) order true 0
          = Ok (1%nat, order)
        /\ Order_make_valid order = Ok order).
Proof.
  split; [reflexivity|].
  intros order Hrules. unfold Order_make_valid. rewrite Hrules.
  split; reflexivity.
Qed.

Lemma make_valid_without_rules_witness :
  let order :=
    Order_init 1 5 SELL
      (deposit_market ("A", "E1") ("A", "E2") "E1")%string 5 0 in
  _rules (_market order) = [] /\ Order_make_valid order = Ok order.
Proof.
  intros order.
  split; [reflexivity|].
  apply (proj2 make_valid_without_rules order). reflexivity.
Defined.

(** C3, at the failing input: with step 1, a quantity 2.3 and a minimum
    size 2.2, rounding down (2) is below the minimum, and the rule then
    sets the quantity to 2.3 + 0.3 = 2.6, which is not a multiple of the
    step, although the multiple above (3) lies within the bounds. *)
Theorem SizeRule_second_option_adds_modulus :
  SizeRule_make_valid 0 0 1 order_between_steps
    = Ok (true, set_size order_between_steps (13 # 5))
  /\ Decimal.rem (13 # 5) 1 = Ok (3 # 5)
  /\ _minimum order_between_steps <= 3 < _maximum order_between_steps.
Proof.
  split; [vm_compute; reflexivity|].
  split; [vm_compute; reflexivity|].
  split; [discriminate|reflexivity].
Qed.

(** C5, at the failing inputs: below the minimum notional 2.5, a first
    [make_valid] completes with quantity 2.5, because [ValueRule] has
    resized the order and answered [False]; a second [make_valid] then
    changes the order again (quantity 3 when the minimum size is 2.2),
    or never settles and raises (minimum size 0). *)
Theorem make_valid_twice_differs :
  ValueRule_make_valid (5 # 2) (order_below_notional 0)
    = Ok (false, set_size (order_below_notional 0) (5 # 2))
  /\ Order_make_valid (order_below_notional (22 # 10))
    = Ok (set_size (order_below_notional (22 # 10)) (5 # 2))
  /\ Order_make_valid (set_size (order_below_notional (22 # 10)) (5 # 2))
    = Ok (set_size (order_below_notional (22 # 10)) 3)
  /\ Order_make_valid (order_below_notional 0)
    = Ok (set_size (order_below_notional 0) (5 # 2))
  /\ Order_make_valid (set_size (order_below_notional 0) (5 # 2))
    = Raise ImpossibleOrder.
Proof.
  repeat split; vm_compute; reflexivity.
Qed.

End OrderValidation.

Section SetTargetAmount.

Local Open Scope Q_scope.








End SetTargetAmount.

Section PathOrderGenerator.

Local Open Scope Q_scope.



(** C1, at the failing input: 10 A through the triangle whose third leg
    is capped at 5.  [Path.generate_orders] re-solves both earlier orders
    against the source amount of the old first order (10) instead of
    their successors': the first order now yields 10 B while the second
    needs 20 B, and the second yields 10 C while the third takes 5 C.
    The loop of [Arbitrage.arbitrage_helper], on the same orders, gives
    the chain 2.5 A -> 10 B -> 5 C -> 5 A. *)
Theorem generate_orders_revises_against_first_order :
  generate_orders (firstn 2 capped_triangle) 10
    = Ok (Some [triangle_order_1; triangle_order_2])
  /\ (exists o1 o2,
        generate_orders capped_triangle 10 = Ok (Some [o1; o2; triangle_order_3])
        /\ get_target_amount o1 true = 10 /\ get_source_amount o2 = 20
        /\ get_target_amount o2 true = 10
        /\ get_source_amount triangle_order_3 = 5
        /\ ~ chain_funded [o1; o2; triangle_order_3])
  /\ (exists o1 o2,
        arbitrage_revise_orders (rev [triangle_order_1; triangle_order_2])
          [triangle_order_3] = Ok [o1; o2; triangle_order_3]
        /\ get_target_amount o1 true = 10 /\ get_source_amount o2 = 10
        /\ get_target_amount o2 true = 5
        /\ chain_funded [o1; o2; triangle_order_3]).
Proof.
  split; [vm_compute; reflexivity|]. split.
  - eexists _, _. split; [vm_compute; reflexivity|].
    repeat (split; [vm_compute; reflexivity|]).
    intros [H _]. vm_compute in H. apply H. reflexivity.
  - eexists _, _. split; [vm_compute; reflexivity|].
    repeat (split; [vm_compute; reflexivity|]).
    cbn. repeat split; vm_compute; discriminate.
Qed.

End PathOrderGenerator.

Section Ladders.

Local Open Scope Q_scope.

(** C4, at the failing input: an update with size 0 for a price that is
    not in the ladder falls through to the [else] branch and pushes an
    entry of size 0, which [get_bid_price] / [get_ask_price] then return
    as the top of the book; the same happens when a level that was just
    removed is removed again. *)
Theorem update_with_zero_size_inserts :
  _bidHeap (update_bid_price empty_market 1 0) = [ScoreItem_init 1 0 true]
  /\ (exists top, get_bid_price (update_bid_price empty_market 1 0) = Some top
                  /\ get_score top = 1 /\ get_item top = 0)
  /\ (exists top, get_ask_price (update_ask_price empty_market 1 0) = Some top
                  /\ get_score top = 1 /\ get_item top = 0)
  /\ get_bid_price (update_bid_price (update_bid_price empty_market 5 2) 5 0) = None
  /\ (exists top,
        get_bid_price
          (update_bid_price
             (update_bid_price (update_bid_price empty_market 5 2) 5 0) 5 0)
        = Some top
        /\ get_score top = 5 /\ get_item top = 0).
Proof.
  split; [vm_compute; reflexivity|].
  split; [eexists; repeat split; vm_compute; reflexivity|].
  split; [eexists; repeat split; vm_compute; reflexivity|].
  split; [vm_compute; reflexivity|].
  eexists; repeat split; vm_compute; reflexivity.
Qed.

End Ladders.

Section Parallelization.

Variable bal : Balances.

Lemma split_at_deposits_concat (orders : list Order) :
  forall tmp_orders,
    concat (split_at_deposits tmp_orders orders)
    = tmp_orders ++ List.filter (fun o => negb (is_deposit o)) orders.
Proof.
  induction orders as [|o rest IH]; intros tmp; cbn.
  - now rewrite !app_nil_r.
  - destruct (is_deposit o) eqn:D; cbn.
    + destruct rest as [|o' rest']; [now cbn|].
      now rewrite IH.
    + now rewrite IH, <- app_assoc.
Qed.

Lemma between_deposits_concat (orders : list Order) :
  concat (between_deposits orders) = List.filter (fun o => negb (is_deposit o)) orders.
Proof.
  destruct orders as [|o rest]; [reflexivity|].
  unfold between_deposits. now rewrite split_at_deposits_concat.
Qed.






End Parallelization.



Section DepositEdges.

Lemma has_key_app_new (es : Edges) (key : string) (e : Edge) :
  has_key (es ++ [(key, e)]) key = true.
Proof.
  induction es as [|[k e'] rest IH]; cbn.
  - now rewrite String.eqb_refl.
  - now destruct (String.eqb k key).
Qed.

Lemma lookup_edge_app_new (es : Edges) (key : string) (e : Edge) :
  has_key es key = false -> lookup_edge (es ++ [(key, e)]) key = Some e.
Proof.
  induction es as [|[k e'] rest IH]; cbn.
  - now rewrite String.eqb_refl.
  - destruct (String.eqb k key); [discriminate|exact IH].
Qed.

Lemma edges_of_insert (st : Store) (c : ExchangeCurrency) (es : Edges) :
  edges_of (<[c := es]> st) c = es.
Proof. unfold edges_of. now rewrite lookup_insert_eq. Qed.

Lemma edges_of_insert_ne (st : Store) (c c' : ExchangeCurrency) (es : Edges) :
  c <> c' -> edges_of (<[c := es]> st) c' = edges_of st c'.
Proof. intros H. unfold edges_of. now rewrite lookup_insert_ne. Qed.

(** The reciprocal calls of [add_neighbour_currency] stop within three
    levels: more fuel does not change the store that is returned. *)
Lemma add_neighbour_currency_total (st : Store) (self target : ExchangeCurrency)
    (m : Market) (n : nat) :
  exists st',
    add_neighbour_currency (3 + n) st self target m = Some st'
    /\ add_neighbour_currency 3 st self target m = Some st'.
Proof.
  cbn. destruct (has_key (edges_of st self) (get_code target)) eqn:K1;
    [eexists; split; reflexivity|].
  set (st1 := <[self := edges_of st self ++ [(get_code target, mkEdge target m)]]> st).
  destruct (has_key (edges_of st1 target) (get_code self)) eqn:K2;
    [eexists; split; reflexivity|].
  set (st2 := <[target := edges_of st1 target ++ [(get_code self, mkEdge self m)]]> st1).
  assert (Hne : target <> self).
  { intros ->. subst st1. rewrite edges_of_insert, has_key_app_new in K2.
    discriminate. }
  assert (K3 : has_key (edges_of st2 self) (get_code target) = true).
  { subst st2. rewrite edges_of_insert_ne by exact Hne.
    subst st1. rewrite edges_of_insert. apply has_key_app_new. }
  destruct n; cbn; rewrite K3; eexists; split; reflexivity.
Qed.

(** What one call of [add_neighbour_currency] leaves in the store. *)
Lemma add_neighbour_currency_spec (st : Store) (self target : ExchangeCurrency)
    (m : Market) :
  exists st',
    add_neighbour_currency 3 st self target m = Some st'
    /\ (has_key (edges_of st self) (get_code target) = true -> st' = st)
    /\ (has_key (edges_of st self) (get_code target) = false ->
        get_market st' self (get_code target) = Some (mkEdge target m)
        /\ (target <> self ->
            has_key (edges_of st target) (get_code self) = false ->
            get_market st' target (get_code self) = Some (mkEdge self m))
        /\ (target <> self ->
            has_key (edges_of st target) (get_code self) = true ->
            edges_of st' target = edges_of st target)).
Proof.
  cbn. destruct (has_key (edges_of st self) (get_code target)) eqn:K1.
  - exists st. split; [reflexivity|]. split; [reflexivity|discriminate].
  - set (st1 := <[self := edges_of st self ++ [(get_code target, mkEdge target m)]]> st).
    assert (L1 : get_market st1 self (get_code target) = Some (mkEdge target m)).
    { unfold get_market. subst st1. rewrite edges_of_insert.
      now apply lookup_edge_app_new. }
    destruct (has_key (edges_of st1 target) (get_code self)) eqn:K2.
    + exists st1. split; [reflexivity|]. split; [discriminate|]. intros _.
      split; [exact L1|]. split.
      * intros Hne K. subst st1. rewrite edges_of_insert_ne in K2; congruence.
      * intros Hne _. subst st1. apply edges_of_insert_ne. congruence.
    + set (st2 := <[target := edges_of st1 target ++ [(get_code self, mkEdge self m)]]> st1).
      assert (Hne : target <> self).
      { intros E. subst st1. rewrite E, edges_of_insert, has_key_app_new in K2.
        discriminate. }
      assert (K3 : has_key (edges_of st2 self) (get_code target) = true).
      { subst st2. rewrite edges_of_insert_ne by exact Hne.
        subst st1. rewrite edges_of_insert. apply has_key_app_new. }
      rewrite K3. exists st2. split; [reflexivity|]. split; [discriminate|].
      intros _. split.
      * unfold get_market. subst st2. rewrite edges_of_insert_ne by exact Hne.
        exact L1.
      * split.
        -- intros _ _. unfold get_market. subst st2. rewrite edges_of_insert.
           now apply lookup_edge_app_new.
        -- intros _ K. subst st1. rewrite edges_of_insert_ne in K2; congruence.
Qed.

(** C8, amended: [add_deposit] installs the deposit market through the
    symmetric [add_neighbour_currency].  When the source vertex has no
    entry under the currency code yet, it gets the entry to the target
    vertex over the new market, and the target vertex -- unless it has
    an entry under that code already -- gets the entry back to the
    source vertex over the same market.  When the source vertex already
    has an entry under that code, the store is left as it was. *)
Theorem add_deposit_installs_both_directions
    (st : Store) (self_name code exchange_name : string) :
  let origin_currency : ExchangeCurrency := (code, self_name) in
  let target_currency : ExchangeCurrency := (code, exchange_name) in
  let m := deposit_market origin_currency target_currency self_name in
  is_Some (st !! origin_currency) ->
  is_Some (st !! target_currency) ->
  exists st',
    add_deposit st self_name code exchange_name = Some st'
    /\ (has_key (edges_of st origin_currency) code = true -> st' = st)
    /\ (has_key (edges_of st origin_currency) code = false ->
        get_market st' origin_currency code = Some (mkEdge target_currency m)
        /\ (self_name <> exchange_name ->
            has_key (edges_of st target_currency) code = false ->
            get_market st' target_currency code = Some (mkEdge origin_currency m))
        /\ (self_name <> exchange_name ->
            has_key (edges_of st target_currency) code = true ->
            edges_of st' target_currency = edges_of st target_currency)).
Proof.
  intros origin target m [eo Ho] [et Ht].
  destruct (add_neighbour_currency_spec st origin target m)
    as (st' & Hrun & Hsame & Hnew).
  exists st'. split.
  { unfold add_deposit. fold origin target. rewrite Ho, Ht. exact Hrun. }
  split; [exact Hsame|].
  intros K. destruct (Hnew K) as (H1 & H2 & H3).
  assert (Hne : self_name <> exchange_name -> target <> origin).
  { intros Hn E. apply Hn. now inversion E. }
  split; [exact H1|]. split.
  - intros Hn. apply H2. now apply Hne.
  - intros Hn. apply H3. now apply Hne.
Qed.

Lemma add_deposit_installs_both_directions_witness :
  exists st',
    add_deposit two_exchanges "Poloniex" "BTC" "Binance" = Some st'
    /\ get_market st' ("BTC", "Poloniex") "BTC"
       = Some (mkEdge ("BTC", "Binance")
                 (deposit_market ("BTC", "Poloniex") ("BTC", "Binance") "Poloniex"))
    /\ get_market st' ("BTC", "Binance") "BTC"
       = Some (mkEdge ("BTC", "Poloniex")
                 (deposit_market ("BTC", "Poloniex") ("BTC", "Binance") "Poloniex")).
Proof.
  destruct (add_deposit_installs_both_directions two_exchanges
              "Poloniex" "BTC" "Binance")
    as (st' & Hrun & _ & Hnew).
  - eexists. vm_compute. reflexivity.
  - eexists. vm_compute. reflexivity.
  - exists st'. split; [exact Hrun|].
    destruct Hnew as (H1 & H2 & _); [vm_compute; reflexivity|].
    split; [exact H1|].
    apply H2; [discriminate|vm_compute; reflexivity].
Defined.

(** C8 as stated fails: on two exchanges without edges the target vertex
    gets the entry back to the source over the deposit market; and when
    the source vertex already has a deposit edge for the currency, a
    further [add_deposit] gives it no entry to the new target. *)
Lemma deposit_edges_not_directional :
  ~ deposit_is_directional two_exchanges "Poloniex" "BTC" "Binance"
  /\ ~ deposit_is_directional three_exchanges "Poloniex" "BTC" "Binance".
Proof.
  split; intros H.
  - assert (E : add_deposit two_exchanges "Poloniex" "BTC" "Binance"
                = Some (default ∅ (add_deposit two_exchanges "Poloniex" "BTC" "Binance")))
      by (vm_compute; reflexivity).
    destruct (H _ E) as [_ Hback]. apply (Hback "BTC"%string).
    vm_compute. left. reflexivity.
  - assert (E : add_deposit three_exchanges "Poloniex" "BTC" "Binance"
                = Some three_exchanges) by (vm_compute; reflexivity).
    destruct (H _ E) as [Hto _]. vm_compute in Hto.
    destruct Hto as [Hto|[]]. discriminate Hto.
Qed.

End DepositEdges.

(** * Admission control *)

Section Admission.

Variable cfg : Settings.

Hypothesis bounded :
  multipleSequences cfg = false \/ (0 < maximumSequences cfg)%Z.

Lemma admission_bound_pos : (0 < admission_bound cfg)%Z.
Proof.
  unfold admission_bound. destruct bounded as [-> | H]; [lia |].
  destruct (multipleSequences cfg); lia.
Qed.

(** A scan is only allowed below the bound. *)
Lemma can_scan_below (st : AppState) (now : Q) :
  can_scan cfg st now = true ->
  (currentSequences st < admission_bound cfg)%Z.
Proof.
  unfold can_scan, admission_bound. intros H.
  destruct (multipleSequences cfg) eqn:Hm; cbn in H.
  - apply andb_true_iff in H as [_ H].
    destruct bounded as [? | Hpos]; [discriminate |].
    apply orb_true_iff in H as [H | H]; lia.
  - rewrite orb_false_r in H. lia.
Qed.

Lemma admission_inv_init : admission_inv cfg App_init.
Proof.
  pose proof admission_bound_pos.
  unfold admission_inv; cbn. repeat split; lia.
Qed.

Lemma admission_inv_step (st : AppState) (e : Event) :
  admission_inv cfg st -> admission_inv cfg (step cfg st e).
Proof.
  intros (Hcur & Hsc & Hcb). unfold admission_inv, step.
  destruct e as [now | sid legs | | now | | [sid |] status | ].
  - destruct (scanner st) eqn:Es; try (rewrite Es; tauto).
    destruct (can_scan cfg st now) eqn:Ec.
    + apply can_scan_below in Ec. cbn. tauto.
    + rewrite Es. tauto.
  - destruct (scanner st) eqn:Es; try (rewrite Es; tauto). cbn. tauto.
  - destruct (scanner st) eqn:Es; try (rewrite Es; tauto). cbn. tauto.
  - destruct (scanner st) eqn:Es; try (rewrite Es; tauto). cbn. tauto.
  - destruct (scanner st) eqn:Es; try (rewrite Es; tauto). cbn.
    repeat split; [lia | tauto].
  - destruct status;
      try (destruct (scanner st), (callback st); tauto).
    destruct (callback st) eqn:Eb.
    + destruct (sequences st !! sid) as [remaining |].
      * destruct (remaining - 1 <=? 0)%Z; cbn;
          destruct (scanner st); cbn; auto.
      * destruct (scanner st); rewrite Eb; tauto.
    + destruct (scanner st); rewrite Eb; tauto.
  - destruct (scanner st), (callback st); tauto.
  - destruct (callback st) eqn:Eb.
    + destruct (scanner st); rewrite Eb; tauto.
    + destruct (scanner st) eqn:Es; cbn; repeat split; lia.
Qed.

Lemma admission_inv_run (events : list Event) :
  admission_inv cfg (run cfg events).
Proof.
  unfold run. generalize admission_inv_init. generalize App_init.
  induction events as [| e events IH]; intros st Hst; cbn; [exact Hst |].
  apply IH, admission_inv_step, Hst.
Qed.

(** X1. Whatever the scanner thread and the completion callbacks do, and
    however their statements interleave, the counter of running sequences
    stays within the bound of the settings: one without
    [multipleSequences], [maximumSequences] with it when that is
    positive. *)
Theorem currentSequences_within_bound (events : list Event) :
  (currentSequences (run cfg events) <= admission_bound cfg)%Z.
Proof. exact (proj1 (admission_inv_run events)). Qed.

End Admission.

Lemma currentSequences_within_bound_witness :
  currentSequences
    (run two_sequences (admit_sequence "a" 11 ++ admit_sequence "b" 22)) = 2%Z
  /\ (currentSequences
        (run two_sequences
           (admit_sequence "a" 11 ++ admit_sequence "b" 22
            ++ admit_sequence "c" 33 ++ complete_sequence "a"
            ++ admit_sequence "d" 44 ++ admit_sequence "e" 55))
      <= admission_bound two_sequences)%Z.
Proof.
  split; [vm_compute; reflexivity |].
  apply (currentSequences_within_bound two_sequences).
  right. cbn. lia.
Defined.

Section UnlimitedAdmission.

Variable cfg : Settings.

Hypothesis multiple : multipleSequences cfg = true.
Hypothesis unlimited : maximumSequences cfg = 0%Z.

Lemma run_app (events events' : list Event) :
  run cfg (events ++ events') = fold_left (step cfg) events' (run cfg events).
Proof. unfold run. apply fold_left_app. Qed.

Lemma can_scan_unlimited (st : AppState) (now : Q) :
  (timeBetweenSequences cfg < now - lastSequenceStarted st)%Q ->
  can_scan cfg st now = true.
Proof.
  intros Hlt. unfold can_scan. rewrite multiple, unlimited.
  replace (Decimal.ltb (timeBetweenSequences cfg)
             (Decimal.sub now (lastSequenceStarted st))) with true;
    [reflexivity |].
  symmetry. apply Decimal_ltb_true. now rewrite Decimal_sub_correct.
Qed.

Lemma admit_sequence_counts (st : AppState) (sequence_id : string) (now : Q) :
  scanner st = Idle ->
  can_scan cfg st now = true ->
  let st' := fold_left (step cfg) (admit_sequence sequence_id now) st in
  currentSequences st' = (currentSequences st + 1)%Z
  /\ lastSequenceStarted st' = now
  /\ scanner st' = Idle.
Proof.
  intros Hidle Hcan. unfold admit_sequence. cbn [fold_left].
  assert (E : step cfg st (ScanCheck now) = set_scanner st Scanning).
  { unfold step. now rewrite Hidle, Hcan. }
  rewrite E. cbn. auto.
Qed.

Lemma spaced_time_step (k : nat) :
  (timeBetweenSequences cfg < spaced_time cfg (S k) - spaced_time cfg k)%Q.
Proof.
  unfold spaced_time. rewrite Nat2Z.inj_succ. unfold Z.succ.
  rewrite inject_Z_plus.
  assert (H : (timeBetweenSequences cfg <= Qabs (timeBetweenSequences cfg))%Q)
    by apply Qle_Qabs.
  set (d := Qabs (timeBetweenSequences cfg)) in *.
  set (t := timeBetweenSequences cfg) in *.
  assert (E : ((inject_Z (Z.of_nat k) + inject_Z 1) * (d + 1)
               - inject_Z (Z.of_nat k) * (d + 1) == d + 1)%Q) by ring.
  rewrite E. apply Qle_lt_trans with d; [exact H |].
  rewrite <- (Qplus_0_r d) at 1. apply Qplus_lt_r. reflexivity.
Qed.

Lemma spaced_admissions_state (n : nat) :
  let st := run cfg (spaced_admissions cfg n) in
  currentSequences st = Z.of_nat n
  /\ (lastSequenceStarted st == spaced_time cfg n)%Q
  /\ scanner st = Idle.
Proof.
  induction n as [| k IH]; [cbn; repeat split; unfold spaced_time; ring |].
  cbn zeta in *. destruct IH as (Hcur & Hlast & Hidle).
  cbn [spaced_admissions]. rewrite run_app.
  destruct (admit_sequence_counts (run cfg (spaced_admissions cfg k))
              (pretty (S k)) (spaced_time cfg (S k)) Hidle)
    as (Hcur' & Hlast' & Hidle').
  { apply can_scan_unlimited. rewrite Hlast. apply spaced_time_step. }
  split; [rewrite Hcur', Hcur; lia |].
  split; [rewrite Hlast'; reflexivity | exact Hidle'].
Qed.

(** X2. With [multipleSequences] set and [maximumSequences = 0] the
    number of running sequences has no bound: admissions that are more
    than [timeBetweenSequences] apart are all accepted, so that after [n]
    of them, none completed, the counter is [n]. *)
Theorem unlimited_sequences_unbounded (n : nat) :
  currentSequences (run cfg (spaced_admissions cfg n)) = Z.of_nat n.
Proof. exact (proj1 (spaced_admissions_state n)). Qed.

End UnlimitedAdmission.

Lemma unlimited_sequences_unbounded_witness :
  currentSequences
    (run unlimited_sequences (spaced_admissions unlimited_sequences 3)) = 3%Z.
Proof.
  apply (unlimited_sequences_unbounded unlimited_sequences eq_refl eq_refl 3).
Defined.

(** * The heap of [heapq] *)

Ltac halve a :=
  let q := fresh "q" in
  let r := fresh "r" in
  pose proof (Nat.div_mod_eq a 2);
  pose proof (Nat.mod_upper_bound a 2 ltac:(lia));
  set (q := (a / 2)%nat) in *; set (r := (a mod 2)%nat) in *;
  clearbody q r.

Ltac divlia :=
  repeat match goal with
  | H : context [ (?a / 2)%nat ] |- _ => halve a
  | |- context [ (?a / 2)%nat ] => halve a
  end; lia.

Section HeapFacts.

Lemma ScoreItem_lt_true (x y : ScoreItem) :
  ScoreItem_lt x y = true <-> (score x < score y)%Q.
Proof. apply Decimal_ltb_true. Qed.

Lemma ScoreItem_lt_false (x y : ScoreItem) :
  ScoreItem_lt x y = false <-> (score y <= score x)%Q.
Proof. apply Decimal_ltb_false. Qed.

Lemma descends_le (k j : nat) : descends k j -> k <= j.
Proof. induction 1; [lia | divlia]. Qed.

Lemma descends_root (j : nat) : descends 0 j.
Proof.
  induction j as [j IH] using lt_wf_ind.
  destruct (decide (j = 0)) as [-> | Hj]; [constructor |].
  apply descends_below; [lia |]. apply IH. divlia.
Qed.

Lemma descends_parent (k j : nat) :
  descends k j -> k < j -> descends k ((j - 1) / 2).
Proof. destruct 1; [lia | auto]. Qed.

Lemma descends_child (k p c : nat) :
  descends k p -> 0 < c -> (c - 1) / 2 = p -> descends k c.
Proof. intros Hp Hc <-. now apply descends_below. Qed.

(** The walk of [_siftdown] towards [startpos]. *)
Lemma siftdown_loop_spec (k : nat) (fuel : nat) :
  forall (h : list ScoreItem) (pos : nat) (x : ScoreItem),
    pos < length h -> pos <= fuel -> descends k pos ->
    siftdown_inv k (<[pos := x]> h) pos ->
    ordered_from k (siftdown_loop fuel h k pos x)
    /\ siftdown_loop fuel h k pos x ≡ₚ <[pos := x]> h
    /\ length (siftdown_loop fuel h k pos x) = length h.
Proof.
  assert (Hstop : forall (h : list ScoreItem) pos x,
             pos < length h ->
             siftdown_inv k (<[pos := x]> h) pos ->
             (k < pos ->
              forall xp, <[pos := x]> h !! ((pos - 1) / 2) = Some xp ->
                         (score xp <= score x)%Q) ->
             ordered_from k (<[pos := x]> h)).
  { intros h pos x Hlen [Ha _] Hp j xj xp Hj Hk Hxj Hxp.
    destruct (decide (j = pos)) as [-> | Hne]; [| eauto].
    rewrite list_lookup_insert_eq in Hxj by exact Hlen.
    inversion Hxj; subst xj. apply Hp; [divlia | exact Hxp]. }
  induction fuel as [| fuel IH]; intros h pos x Hlen Hfuel Hdesc Hinv.
  - cbn. split; [| split; [reflexivity | apply length_insert]].
    apply Hstop; auto. intros; lia.
  - cbn [siftdown_loop].
    destruct (k <? pos) eqn:Hk;
      [apply Nat.ltb_lt in Hk | apply Nat.ltb_ge in Hk].
    2:{ split; [| split; [reflexivity | apply length_insert]].
        apply Hstop; auto. intros; lia. }
    assert (Hpp : (pos - 1) / 2 < pos) by divlia.
    destruct (h !! ((pos - 1) / 2)) as [parent |] eqn:Hparent.
    2:{ apply lookup_ge_None in Hparent. lia. }
    assert (Hgp : <[pos := x]> h !! ((pos - 1) / 2) = Some parent).
    { rewrite list_lookup_insert_ne by lia. exact Hparent. }
    assert (Hgx : <[pos := x]> h !! pos = Some x)
      by (apply list_lookup_insert_eq; exact Hlen).
    destruct (ScoreItem_lt x parent) eqn:Hlt.
    2:{ split; [| split; [reflexivity | apply length_insert]].
        apply Hstop; auto. intros _ xp Hxp.
        rewrite Hgp in Hxp. inversion Hxp; subst xp.
        now apply ScoreItem_lt_false. }
    apply ScoreItem_lt_true in Hlt.
    set (pp := (pos - 1) / 2) in *.
    set (g := <[pos := x]> h) in *.
    assert (Hg' : <[pp := x]> (<[pos := parent]> h)
                  = <[pp := x]> (<[pos := parent]> g)).
    { unfold g. now rewrite list_insert_insert_eq. }
    assert (Hlook : forall j,
               <[pp := x]> (<[pos := parent]> h) !! j
               = if decide (j = pp) then Some x
                 else if decide (j = pos) then Some parent
                 else g !! j).
    { intros j. rewrite Hg'.
      destruct (decide (j = pp)) as [-> | Hj1].
      - apply list_lookup_insert_eq. rewrite length_insert.
        unfold g. rewrite length_insert. lia.
      - rewrite list_lookup_insert_ne by congruence.
        destruct (decide (j = pos)) as [-> | Hj2].
        + apply list_lookup_insert_eq. unfold g. rewrite length_insert. lia.
        + now rewrite list_lookup_insert_ne by congruence. }
    destruct (IH (<[pos := parent]> h) pp x) as (Hord & Hperm & Hlen').
    + rewrite length_insert. lia.
    + lia.
    + now apply descends_parent.
    + destruct Hinv as [Ha Hb]. split.
      * intros j xj xp Hj Hkj Hne Hxj Hxp.
        rewrite Hlook in Hxj, Hxp.
        destruct (decide (j = pp)) as [| _]; [congruence |].
        destruct (decide (j = pos)) as [-> | Hjpos].
        -- fold pp in Hxp. destruct (decide (pp = pp)); [| congruence].
           inversion Hxj; inversion Hxp; subst. now apply Qlt_le_weak.
        -- destruct (decide ((j - 1) / 2 = pp)) as [Hpj | Hpj].
           ++ inversion Hxp; subst xp.
              apply Qle_trans with (score parent); [now apply Qlt_le_weak |].
              apply (Ha j xj parent); auto. now rewrite Hpj.
           ++ destruct (decide ((j - 1) / 2 = pos)) as [Hpj' | Hpj'].
              ** inversion Hxp; subst xp.
                 apply (Hb Hk j xj parent); auto.
              ** apply (Ha j xj xp); auto.
      * intros Hkpp c xc xp Hc Hcp Hxc Hxp.
        rewrite Hlook in Hxc, Hxp.
        assert (Hpp0 : 0 < pp) by lia.
        assert (Hgpp : (pp - 1) / 2 < pp) by divlia.
        destruct (decide ((pp - 1) / 2 = pp)) as [| _]; [lia |].
        destruct (decide ((pp - 1) / 2 = pos)) as [| _]; [lia |].
        assert (Hkgp : k <= (pp - 1) / 2).
        { apply descends_le, descends_parent; [| exact Hkpp].
          now apply descends_parent. }
        assert (Hgrand : (score xp <= score parent)%Q).
        { apply (Ha pp parent xp); auto. lia. }
        destruct (decide (c = pp)) as [| _]; [divlia |].
        destruct (decide (c = pos)) as [-> | Hcpos].
        -- inversion Hxc; subst xc. exact Hgrand.
        -- apply Qle_trans with (score parent); [exact Hgrand |].
           apply (Ha c xc parent); auto; [lia | now rewrite Hcp].
    + split; [exact Hord |]. split.
      * rewrite Hperm, Hg'.
        apply Permutation_insert_swap; [exact Hgx | exact Hgp].
      * rewrite Hlen'. apply length_insert.
Qed.

(** [heappush] keeps the heap order and adds the item. *)
Lemma heappush_spec (h : list ScoreItem) (x : ScoreItem) :
  heap_ordered h ->
  heap_ordered (heappush h x)
  /\ heappush h x ≡ₚ x :: h
  /\ length (heappush h x) = S (length h).
Proof.
  intros Hh. unfold heappush, _siftdown.
  assert (Hlast : (h ++ [x]) !! length h = Some x).
  { rewrite lookup_app_r by lia. now rewrite Nat.sub_diag. }
  rewrite Hlast.
  assert (Hid : <[length h := x]> (h ++ [x]) = h ++ [x])
    by (apply list_insert_id; exact Hlast).
  destruct (siftdown_loop_spec 0 (length h) (h ++ [x]) (length h) x)
    as (Hord & Hperm & Hlen).
  - rewrite length_app. cbn. lia.
  - lia.
  - apply descends_root.
  - rewrite Hid. split.
    + intros j xj xp Hj _ Hne Hxj Hxp.
      assert (Hjlt : j < length h).
      { apply lookup_lt_Some in Hxj. rewrite length_app in Hxj. cbn in Hxj. lia. }
      rewrite lookup_app_l in Hxj by lia.
      rewrite lookup_app_l in Hxp by divlia.
      apply (Hh j xj xp); auto. lia.
    + intros _ c xc xp Hc Hcp Hxc _.
      apply lookup_lt_Some in Hxc. rewrite length_app in Hxc. cbn in Hxc.
      divlia.
  - split; [exact Hord |]. split.
    + rewrite Hperm, Hid. symmetry. apply Permutation_cons_append.
    + rewrite Hlen, length_app. cbn. lia.
Qed.

(** The first loop of [_siftup]: the hole goes down to a leaf along the
    smaller children. *)
Lemma siftup_loop_spec (k : nat) (fuel : nat) :
  forall (h : list ScoreItem) (pos : nat),
    pos < length h -> length h - pos <= fuel -> descends k pos ->
    siftup_inv k h pos ->
    let '(h', leaf) := siftup_loop fuel h (length h) pos in
    length h' = length h
    /\ leaf < length h
    /\ length h <= 2 * leaf + 1
    /\ descends k leaf
    /\ siftup_inv k h' leaf
    /\ (forall x, <[leaf := x]> h' ≡ₚ <[pos := x]> h).
Proof.
  induction fuel as [| fuel IH]; intros h pos Hlen Hfuel Hdesc Hinv; [lia |].
  cbn [siftup_loop].
  destruct (2 * pos + 1 <? length h) eqn:Hc;
    [apply Nat.ltb_lt in Hc | apply Nat.ltb_ge in Hc].
  2:{ do 4 (split; [auto; lia |]). split; [exact Hinv | reflexivity]. }
  destruct (h !! (2 * pos + 1)) as [l |] eqn:Hl.
  2:{ apply lookup_ge_None in Hl. lia. }
  set (cpos :=
         match h !! (2 * pos + 1 + 1) with
         | Some r =>
             if (2 * pos + 1 + 1 <? length h) && negb (ScoreItem_lt l r)
             then 2 * pos + 1 + 1 else 2 * pos + 1
         | None => 2 * pos + 1
         end).
  assert (Hcases :
            (cpos = 2 * pos + 1
             /\ forall r, h !! (2 * pos + 2) = Some r -> (score l <= score r)%Q)
            \/ (cpos = 2 * pos + 2
                /\ exists r, h !! (2 * pos + 2) = Some r
                             /\ (score r <= score l)%Q)).
  { unfold cpos. replace (2 * pos + 1 + 1) with (2 * pos + 2) by lia.
    destruct (h !! (2 * pos + 2)) as [r |] eqn:Hr.
    - destruct (2 * pos + 2 <? length h) eqn:Hrl; cbn.
      + destruct (ScoreItem_lt l r) eqn:Hlt; cbn.
        * left. split; [reflexivity |]. intros r' Hr'. inversion Hr'; subst.
          apply ScoreItem_lt_true in Hlt. now apply Qlt_le_weak.
        * right. split; [reflexivity |]. exists r. split; [reflexivity |].
          now apply ScoreItem_lt_false.
      + apply Nat.ltb_ge in Hrl. apply lookup_lt_Some in Hr. lia.
    - left. split; [reflexivity |]. intros r; discriminate. }
  assert (Hchild : exists child,
             h !! cpos = Some child
             /\ forall s xs, 0 < s -> (s - 1) / 2 = pos -> h !! s = Some xs ->
                             (score child <= score xs)%Q).
  { destruct Hcases as [[-> Hmin] | [-> (r & Hr & Hmin)]].
    - exists l. split; [exact Hl |]. intros s xs Hs Hsp Hxs.
      assert (s = 2 * pos + 1 \/ s = 2 * pos + 2) as [-> | ->] by divlia.
      + rewrite Hl in Hxs. inversion Hxs. apply Qle_refl.
      + now apply Hmin.
    - exists r. split; [exact Hr |]. intros s xs Hs Hsp Hxs.
      assert (s = 2 * pos + 1 \/ s = 2 * pos + 2) as [-> | ->] by divlia.
      + rewrite Hl in Hxs. inversion Hxs; subst. exact Hmin.
      + rewrite Hr in Hxs. inversion Hxs. apply Qle_refl. }
  destruct Hchild as (child & Hchild & Hmin).
  assert (Hcpos : 0 < cpos /\ (cpos - 1) / 2 = pos /\ pos < cpos).
  { destruct Hcases as [[-> _] | [-> _]]; repeat split; divlia. }
  destruct Hcpos as (Hcpos0 & Hcposp & Hcposlt).
  fold cpos. rewrite Hchild.
  assert (Hclt : cpos < length h) by (now apply lookup_lt_Some in Hchild).
  specialize (IH (<[pos := child]> h) cpos).
  rewrite length_insert in IH.
  assert (Hlook : forall j,
             <[pos := child]> h !! j
             = if decide (j = pos) then Some child else h !! j).
  { intros j. destruct (decide (j = pos)) as [-> | Hj].
    - now apply list_lookup_insert_eq.
    - now rewrite list_lookup_insert_ne by congruence. }
  destruct (siftup_loop fuel (<[pos := child]> h) (length h) cpos)
    as [h' leaf] eqn:Hloop.
  destruct IH as (Hlen' & Hleaf & Hnochild & Hdesc' & Hinv' & Hperm).
  - exact Hclt.
  - lia.
  - now apply (descends_child k pos).
  - destruct Hinv as [J1 J2]. split.
    + intros j xj xp Hj Hkj Hne Hnep Hxj Hxp. rewrite Hlook in Hxj, Hxp.
      destruct (decide (j = pos)) as [-> | Hjpos].
      * inversion Hxj; subst xj.
        destruct (decide ((pos - 1) / 2 = pos)) as [| _]; [divlia |].
        apply (J2 ltac:(divlia) cpos child xp); auto.
      * destruct (decide ((j - 1) / 2 = pos)) as [Hjp | Hjp].
        -- inversion Hxp; subst xp. now apply (Hmin j).
        -- apply (J1 j xj xp); auto.
    + intros _ c xc xp Hc0 Hcp Hxc Hxp. rewrite Hlook in Hxc, Hxp.
      rewrite Hcposp in Hxp.
      destruct (decide (pos = pos)) as [_ |]; [| congruence].
      inversion Hxp; subst xp.
      destruct (decide (c = pos)) as [| n]; [divlia |].
      assert (H1 : k <= (c - 1) / 2)
        by (rewrite Hcp; apply descends_le in Hdesc; lia).
      assert (H2 : (c - 1) / 2 <> pos) by (rewrite Hcp; lia).
      assert (H3 : h !! ((c - 1) / 2) = Some child) by (now rewrite Hcp).
      apply (J1 c xc child Hc0 H1 n H2 Hxc H3).
  - do 5 (split; [assumption |]).
    intros x. rewrite Hperm.
    assert (E : <[pos := child]> h = <[pos := child]> (<[pos := x]> h))
      by (now rewrite list_insert_insert_eq).
    rewrite E. apply Permutation_insert_swap.
    + now apply list_lookup_insert_eq.
    + rewrite list_lookup_insert_ne by lia. exact Hchild.
Qed.

(** [_siftup(heap, pos)] puts the subtree of [pos] in order when the
    subtrees below it are. *)
Lemma _siftup_spec (h : list ScoreItem) (pos : nat) :
  ordered_from (S pos) h ->
  ordered_from pos (_siftup h pos)
  /\ _siftup h pos ≡ₚ h
  /\ length (_siftup h pos) = length h.
Proof.
  intros Hord. unfold _siftup.
  destruct (h !! pos) as [newitem |] eqn:Hnew.
  2:{ split; [| auto]. intros j xj xp Hj Hk Hxj Hxp.
      destruct (decide ((j - 1) / 2 = pos)) as [E | E]; [congruence |].
      apply (Hord j xj xp); auto. lia. }
  assert (Hpos : pos < length h) by (now apply lookup_lt_Some in Hnew).
  pose proof (siftup_loop_spec pos (length h) h pos Hpos ltac:(lia)
                (descends_here pos)) as Hloop.
  destruct (siftup_loop (length h) h (length h) pos) as [h' leaf].
  destruct Hloop as (Hlen' & Hleaf & Hnochild & Hdesc & [J1 _] & Hperm).
  { split; [| intros; lia].
    intros j xj xp Hj Hk Hne Hnep Hxj Hxp. apply (Hord j xj xp); auto. lia. }
  unfold _siftdown.
  assert (Hg : <[leaf := newitem]> h' !! leaf = Some newitem)
    by (apply list_lookup_insert_eq; lia).
  rewrite Hg.
  assert (Hid : <[leaf := newitem]> (<[leaf := newitem]> h')
                = <[leaf := newitem]> h')
    by (apply list_insert_insert_eq).
  destruct (siftdown_loop_spec pos leaf (<[leaf := newitem]> h') leaf newitem)
    as (Hres & Hperm' & Hlen'').
  - rewrite length_insert. lia.
  - lia.
  - exact Hdesc.
  - rewrite Hid. split.
    + intros j xj xp Hj Hk Hne Hxj Hxp.
      assert (Hjl : j < length h).
      { apply lookup_lt_Some in Hxj. rewrite length_insert in Hxj. lia. }
      assert (Hnp : (j - 1) / 2 <> leaf) by divlia.
      rewrite list_lookup_insert_ne in Hxj by congruence.
      rewrite list_lookup_insert_ne in Hxp by congruence.
      apply (J1 j xj xp); auto.
    + intros _ c xc xp Hc Hcp Hxc _.
      apply lookup_lt_Some in Hxc. rewrite length_insert in Hxc. divlia.
  - split; [exact Hres |]. split.
    + rewrite Hperm', Hid, Hperm. now rewrite list_insert_id.
    + rewrite Hlen'', length_insert. exact Hlen'.
Qed.

Lemma heapify_from (m : nat) :
  forall h : list ScoreItem,
    ordered_from m h ->
    heap_ordered (fold_left _siftup (rev (seq 0 m)) h)
    /\ fold_left _siftup (rev (seq 0 m)) h ≡ₚ h.
Proof.
  induction m as [| m IH]; intros h Hord; [cbn; auto |].
  rewrite seq_S, rev_app_distr. cbn [rev app fold_left Nat.add].
  destruct (_siftup_spec h m Hord) as (Hord' & Hperm & _).
  destruct (IH _ Hord') as (Hres & Hperm').
  split; [exact Hres | now rewrite Hperm'].
Qed.

(** [heapify] puts any list in heap order and keeps its items. *)
Lemma heapify_spec (h : list ScoreItem) :
  heap_ordered (heapify h) /\ heapify h ≡ₚ h.
Proof.
  apply heapify_from. intros j xj xp Hj Hk Hxj _.
  apply lookup_lt_Some in Hxj. divlia.
Qed.

(** The first item of a list in heap order has the least score. *)
Lemma heap_ordered_top (h : list ScoreItem) (top x : ScoreItem) :
  heap_ordered h -> head h = Some top -> x ∈ h ->
  (score top <= score x)%Q.
Proof.
  intros Hord Htop Hx. apply list_elem_of_lookup in Hx as [j Hj].
  revert x Hj. induction j as [j IH] using lt_wf_ind. intros x Hj.
  destruct (decide (j = 0)) as [-> | Hne].
  - rewrite <- head_lookup, Htop in Hj. inversion Hj. apply Qle_refl.
  - assert (Hp : (j - 1) / 2 < j) by divlia.
    destruct (h !! ((j - 1) / 2)) as [p |] eqn:Hparent.
    2:{ apply lookup_ge_None in Hparent. apply lookup_lt_Some in Hj. lia. }
    apply Qle_trans with (score p); [now apply (IH ((j - 1) / 2)) |].
    apply (Hord j x p); auto; lia.
Qed.

End HeapFacts.

(** * Market ladders *)

Section LadderFacts.

Lemma get_score_init (price quantity : Q) (inv : bool) :
  (get_score (ScoreItem_init price quantity inv) == price)%Q.
Proof.
  unfold get_score, ScoreItem_init. destruct inv; cbn; [| reflexivity].
  rewrite !Qred_correct. apply Qopp_involutive.
Qed.

Lemma lookup_alter_set_item (h : list ScoreItem) (i j : nat) (q : Q)
    (y : ScoreItem) :
  alter (fun x => set_item x q) i h !! j = Some y ->
  exists x, h !! j = Some x /\ score y = score x /\ inversed y = inversed x
            /\ (j <> i -> y = x) /\ (j = i -> item y = q).
Proof.
  rewrite list_lookup_alter. destruct (decide (i = j)) as [-> | Hne].
  - destruct (h !! j) as [x |]; [| discriminate]. cbn. intros [= <-].
    exists x. cbn. repeat split; auto. congruence.
  - intros Hy. exists y. repeat split; auto. congruence.
Qed.

Lemma ladder_ok_nil (inv : bool) : ladder_ok inv [].
Proof.
  split; [| constructor]. intros j xj xp _ _ Hxj. discriminate.
Qed.

Lemma find_index_Some (h : list ScoreItem) (price : Q) (i : nat) :
  find_index h price = Some i ->
  exists x, h !! i = Some x /\ (get_score x == price)%Q.
Proof.
  revert i. induction h as [| y rest IH]; intros i; cbn; [discriminate |].
  destruct (Decimal.eqb (get_score y) price) eqn:E.
  - intros [= <-]. exists y. split; [reflexivity |].
    now apply Decimal_eqb_true.
  - destruct (find_index rest price) as [k |]; cbn; [| discriminate].
    intros [= <-]. now apply IH.
Qed.

Lemma find_index_None (h : list ScoreItem) (price : Q) :
  find_index h price = None <->
  forall x, x ∈ h -> ~ (get_score x == price)%Q.
Proof.
  induction h as [| y rest IH]; cbn.
  - split; [| reflexivity]. intros _ x Hx. inversion Hx.
  - destruct (Decimal.eqb (get_score y) price) eqn:E.
    + split; [discriminate |]. intros H. exfalso.
      apply (H y); [left | now apply Decimal_eqb_true].
    + assert (Hy : ~ (get_score y == price)%Q).
      { intros Hq. apply Decimal_eqb_true in Hq. congruence. }
      destruct (find_index rest price) as [k |]; cbn.
      * split; [discriminate |]. intros H. exfalso.
        assert (Hn : (None : option nat) = None) by reflexivity.
        destruct IH as [_ IH]. discriminate IH.
        intros x Hx. apply H. now right.
      * split; [| reflexivity]. intros _ x Hx.
        apply elem_of_cons in Hx as [-> | Hx]; [exact Hy |].
        now apply IH.
Qed.

(** Every branch of the update keeps the ladder in heap order. *)
Lemma update_heap_ok (inv : bool) (h : list ScoreItem) (price quantity : Q) :
  ladder_ok inv h -> ladder_ok inv (update_heap inv h price quantity).
Proof.
  intros [Hord Hinv]. unfold update_heap.
  assert (Hpush : ladder_ok inv
                    (heappush h (ScoreItem_init price quantity inv))).
  { destruct (heappush_spec h (ScoreItem_init price quantity inv) Hord)
      as (Hord' & Hperm & _).
    split; [exact Hord' |]. rewrite Hperm. constructor; [| exact Hinv].
    now destruct inv. }
  destruct (find_index h price) as [index |]; [| exact Hpush].
  destruct (Decimal.eqb quantity 0) eqn:Hzero.
  - destruct (heapify_spec (delete index h)) as [Hord' Hperm].
    split; [exact Hord' |]. rewrite Hperm.
    apply Forall_forall. intros x Hx. apply list_elem_of_delete_inv in Hx.
    revert x Hx. now apply Forall_forall.
  - destruct (Decimal.ltb 0 quantity); [| exact Hpush]. split.
    + intros j xj xp Hj Hk Hxj Hxp.
      apply lookup_alter_set_item in Hxj as (x & Hx & -> & _).
      apply lookup_alter_set_item in Hxp as (p & Hp & -> & _).
      now apply (Hord j x p).
    + apply Forall_lookup. intros j y Hy.
      apply lookup_alter_set_item in Hy as (x & Hx & _ & -> & _).
      now apply (Forall_lookup_1 _ _ _ _ Hinv Hx).
Qed.

Lemma fold_update_heap_ok (inv : bool) (updates : list (Q * Q)) :
  forall h,
    ladder_ok inv h ->
    ladder_ok inv (fold_left (fun h u => update_heap inv h u.1 u.2) updates h).
Proof.
  induction updates as [| u rest IH]; intros h Hh; cbn; [exact Hh |].
  now apply IH, update_heap_ok.
Qed.

Lemma bidHeap_apply_bid_updates (updates : list (Q * Q)) :
  forall m,
    _bidHeap (apply_bid_updates m updates)
    = fold_left (fun h u => update_heap true h u.1 u.2) updates (_bidHeap m).
Proof.
  induction updates as [| u rest IH]; intros m; [reflexivity |].
  cbn. unfold apply_bid_updates in IH. now rewrite IH.
Qed.

Lemma askHeap_apply_ask_updates (updates : list (Q * Q)) :
  forall m,
    _askHeap (apply_ask_updates m updates)
    = fold_left (fun h u => update_heap false h u.1 u.2) updates (_askHeap m).
Proof.
  induction updates as [| u rest IH]; intros m; [reflexivity |].
  cbn. unfold apply_ask_updates in IH. now rewrite IH.
Qed.

Lemma ladder_top (inv : bool) (h : list ScoreItem) (x : ScoreItem) :
  ladder_ok inv h -> x ∈ h ->
  exists top,
    head h = Some top
    /\ (if inv then get_score x <= get_score top
        else get_score top <= get_score x)%Q.
Proof.
  intros [Hord Hinv] Hx.
  destruct h as [| top rest] eqn:Eh; [inversion Hx |].
  exists top. split; [reflexivity |].
  pose proof (heap_ordered_top (top :: rest) top x Hord eq_refl Hx) as Hle.
  assert (Hix : inversed x = inv).
  { clear Hle. revert x Hx. now apply Forall_forall. }
  assert (Hit : inversed top = inv) by (now inversion Hinv).
  unfold get_score. rewrite Hix, Hit. destruct inv; [| exact Hle].
  rewrite !Qred_correct. now apply Qopp_le_compat.
Qed.

(** X3. On a bid ladder that started empty, whatever calls of
    [update_bid_price] followed, [get_bid_price] answers with a level
    whose price is the highest of the ladder. *)
Theorem best_bid_is_highest (m : Market) (updates : list (Q * Q))
    (x : ScoreItem) :
  _bidHeap m = [] ->
  x ∈ _bidHeap (apply_bid_updates m updates) ->
  exists top,
    get_bid_price (apply_bid_updates m updates) = Some top
    /\ (get_score x <= get_score top)%Q.
Proof.
  intros Hnil Hx. unfold get_bid_price.
  apply (ladder_top true); [| exact Hx].
  rewrite bidHeap_apply_bid_updates, Hnil.
  apply fold_update_heap_ok, ladder_ok_nil.
Qed.

(** X4. On an ask ladder that started empty, whatever calls of
    [update_ask_price] followed, [get_ask_price] answers with a level
    whose price is the lowest of the ladder. *)
Theorem best_ask_is_lowest (m : Market) (updates : list (Q * Q))
    (x : ScoreItem) :
  _askHeap m = [] ->
  x ∈ _askHeap (apply_ask_updates m updates) ->
  exists top,
    get_ask_price (apply_ask_updates m updates) = Some top
    /\ (get_score top <= get_score x)%Q.
Proof.
  intros Hnil Hx. unfold get_ask_price.
  apply (ladder_top false); [| exact Hx].
  rewrite askHeap_apply_ask_updates, Hnil.
  apply fold_update_heap_ok, ladder_ok_nil.
Qed.

End LadderFacts.

Lemma best_bid_is_highest_witness :
  exists top,
    get_bid_price (apply_bid_updates empty_market [(3, 1); (5, 2); (4, 1)]%Q)
    = Some top
    /\ (get_score (ScoreItem_init 4 1 true) <= get_score top)%Q.
Proof.
  apply (best_bid_is_highest empty_market [(3, 1); (5, 2); (4, 1)]%Q
           (ScoreItem_init 4 1 true)); [reflexivity |].
  vm_compute. repeat constructor.
Defined.

Lemma best_ask_is_lowest_witness :
  exists top,
    get_ask_price (apply_ask_updates empty_market [(8, 1); (6, 2); (7, 1)]%Q)
    = Some top
    /\ (get_score top <= get_score (ScoreItem_init 7 1 false))%Q.
Proof.
  apply (best_ask_is_lowest empty_market [(8, 1); (6, 2); (7, 1)]%Q
           (ScoreItem_init 7 1 false)); [reflexivity |].
  vm_compute. repeat constructor.
Defined.

(** * The items of a heap

    Whatever the order of the list, the operations of [heapq] only move
    items. *)

Section HeapPermutation.

Lemma siftdown_loop_perm (fuel : nat) :
  forall (h : list ScoreItem) (k pos : nat) (x : ScoreItem),
    pos < length h ->
    siftdown_loop fuel h k pos x ≡ₚ <[pos := x]> h.
Proof.
  induction fuel as [| fuel IH]; intros h k pos x Hlen; [reflexivity |].
  cbn [siftdown_loop].
  destruct (k <? pos) eqn:Hk; [apply Nat.ltb_lt in Hk | reflexivity].
  assert (Hpp : (pos - 1) / 2 < pos) by divlia.
  destruct (h !! ((pos - 1) / 2)) as [parent |] eqn:Hparent; [| reflexivity].
  destruct (ScoreItem_lt x parent); [| reflexivity].
  rewrite IH by (rewrite length_insert; lia).
  assert (E : <[pos := parent]> h = <[pos := parent]> (<[pos := x]> h))
    by (now rewrite list_insert_insert_eq).
  rewrite E. apply Permutation_insert_swap.
  - now apply list_lookup_insert_eq.
  - rewrite list_lookup_insert_ne by lia. exact Hparent.
Qed.

Lemma heappush_perm (h : list ScoreItem) (x : ScoreItem) :
  heappush h x ≡ₚ x :: h.
Proof.
  unfold heappush, _siftdown.
  assert (Hlast : (h ++ [x]) !! length h = Some x).
  { rewrite lookup_app_r by lia. now rewrite Nat.sub_diag. }
  rewrite Hlast, siftdown_loop_perm by (rewrite length_app; cbn; lia).
  rewrite list_insert_id by exact Hlast.
  symmetry. apply Permutation_cons_append.
Qed.

Lemma siftup_loop_perm (fuel : nat) :
  forall (h : list ScoreItem) (pos : nat),
    pos < length h ->
    let '(h', leaf) := siftup_loop fuel h (length h) pos in
    length h' = length h
    /\ leaf < length h
    /\ (forall x, <[leaf := x]> h' ≡ₚ <[pos := x]> h).
Proof.
  induction fuel as [| fuel IH]; intros h pos Hlen; [cbn; auto |].
  cbn [siftup_loop].
  destruct (2 * pos + 1 <? length h) eqn:Hc; [| auto].
  set (cpos :=
         match h !! (2 * pos + 1), h !! (2 * pos + 1 + 1) with
         | Some l, Some r =>
             if (2 * pos + 1 + 1 <? length h) && negb (ScoreItem_lt l r)
             then 2 * pos + 1 + 1 else 2 * pos + 1
         | _, _ => 2 * pos + 1
         end).
  assert (Hcpos : pos < cpos).
  { unfold cpos. destruct (h !! (2 * pos + 1)); [| lia].
    destruct (h !! (2 * pos + 1 + 1)); [| lia].
    destruct (_ && _); lia. }
  destruct (h !! cpos) as [child |] eqn:Hchild; [| auto].
  assert (Hclt : cpos < length h) by (now apply lookup_lt_Some in Hchild).
  specialize (IH (<[pos := child]> h) cpos).
  rewrite length_insert in IH.
  destruct (siftup_loop fuel (<[pos := child]> h) (length h) cpos)
    as [h' leaf].
  destruct (IH Hclt) as (Hlen' & Hleaf & Hperm).
  do 2 (split; [assumption |]).
  intros x. rewrite Hperm.
  assert (E : <[pos := child]> h = <[pos := child]> (<[pos := x]> h))
    by (now rewrite list_insert_insert_eq).
  rewrite E. apply Permutation_insert_swap.
  - now apply list_lookup_insert_eq.
  - rewrite list_lookup_insert_ne by lia. exact Hchild.
Qed.

Lemma _siftup_perm (h : list ScoreItem) (pos : nat) : _siftup h pos ≡ₚ h.
Proof.
  unfold _siftup.
  destruct (h !! pos) as [newitem |] eqn:Hnew; [| reflexivity].
  assert (Hpos : pos < length h) by (now apply lookup_lt_Some in Hnew).
  pose proof (siftup_loop_perm (length h) h pos Hpos) as Hloop.
  destruct (siftup_loop (length h) h (length h) pos) as [h' leaf].
  destruct Hloop as (Hlen' & Hleaf & Hperm).
  unfold _siftdown.
  rewrite list_lookup_insert_eq by lia.
  rewrite siftdown_loop_perm by (rewrite length_insert; lia).
  rewrite list_insert_insert_eq, Hperm.
  now rewrite list_insert_id.
Qed.

Lemma heapify_perm (h : list ScoreItem) : heapify h ≡ₚ h.
Proof.
  unfold heapify. generalize (rev (seq 0 (length h / 2))) as positions.
  intros positions. revert h.
  induction positions as [| i rest IH]; intros h; [reflexivity |].
  cbn. rewrite IH. apply _siftup_perm.
Qed.

End HeapPermutation.

Section LadderUpdates.

Variable inv : bool.

Lemma get_score_set_item (x : ScoreItem) (q : Q) :
  get_score (set_item x q) = get_score x.
Proof. reflexivity. Qed.

Lemma Qred_eq_inv (a b : Q) : Qred a = Qred b -> (a == b)%Q.
Proof.
  intros H. rewrite <- (Qred_correct a), <- (Qred_correct b). now rewrite H.
Qed.

Lemma prices_Permutation (h h' : list ScoreItem) :
  h ≡ₚ h' -> prices h ≡ₚ prices h'.
Proof. intros H. unfold prices. now rewrite H. Qed.

Lemma elem_of_prices (h : list ScoreItem) (price : Q) :
  Qred price ∈ prices h <-> exists x, x ∈ h /\ (get_score x == price)%Q.
Proof.
  unfold prices. rewrite list_elem_of_fmap. split.
  - intros (x & Hq & Hx). exists x. split; [exact Hx |].
    symmetry. now apply Qred_eq_inv.
  - intros (x & Hx & Hq). exists x. split; [| exact Hx].
    symmetry. now apply Qred_complete.
Qed.

Lemma prices_lookup_inj (h : list ScoreItem) (i j : nat) (x y : ScoreItem) :
  NoDup (prices h) -> h !! i = Some x -> h !! j = Some y ->
  (get_score x == get_score y)%Q -> i = j.
Proof.
  intros Hnd Hx Hy Hq.
  apply (NoDup_lookup (prices h) i j (Qred (get_score x)) Hnd).
  - unfold prices. now rewrite list_lookup_fmap, Hx.
  - unfold prices. rewrite list_lookup_fmap, Hy. cbn.
    f_equal. symmetry. now apply Qred_complete.
Qed.

Lemma prices_alter_set_item (h : list ScoreItem) (i : nat) (q : Q) :
  prices (alter (fun x => set_item x q) i h) = prices h.
Proof.
  unfold prices. apply list_eq. intros j.
  rewrite !list_lookup_fmap, list_lookup_alter.
  destruct (decide (i = j)) as [-> | Hne]; [| reflexivity].
  now destruct (h !! j).
Qed.

Lemma prices_heappush (h : list ScoreItem) (price quantity : Q) :
  prices (heappush h (ScoreItem_init price quantity inv))
  ≡ₚ Qred price :: prices h.
Proof.
  rewrite (prices_Permutation _ _ (heappush_perm _ _)).
  unfold prices. cbn [fmap list_fmap].
  now rewrite (Qred_complete _ _ (get_score_init price quantity inv)).
Qed.

Lemma Qle_not_eq_lt (q : Q) :
  (0 <= q)%Q -> Decimal.eqb q 0 = false -> Decimal.ltb 0 q = true.
Proof.
  intros Hle Hne. apply Decimal_ltb_true.
  apply Qle_lteq in Hle as [Hlt | Heq]; [exact Hlt |].
  exfalso. symmetry in Heq. apply Decimal_eqb_true in Heq. congruence.
Qed.

(** X5. [update_bid_price] and [update_ask_price] ([inv] tells which) keep
    the prices of a ladder pairwise distinct, as long as the quantity
    they are given is not negative. *)
Theorem ladder_prices_stay_distinct (h : list ScoreItem) (price quantity : Q) :
  NoDup (prices h) -> (0 <= quantity)%Q ->
  NoDup (prices (update_heap inv h price quantity)).
Proof.
  intros Hnd Hq. unfold update_heap.
  destruct (find_index h price) as [index |] eqn:Hfind.
  - destruct (Decimal.eqb quantity 0) eqn:Hzero.
    + rewrite (prices_Permutation _ _ (heapify_perm _)).
      unfold prices. rewrite list_fmap_delete.
      eapply sublist_NoDup; [exact Hnd | apply sublist_delete].
    + rewrite (Qle_not_eq_lt _ Hq Hzero).
      now rewrite prices_alter_set_item.
  - rewrite prices_heappush. apply NoDup_cons. split; [| exact Hnd].
    intros Hin. apply elem_of_prices in Hin as (x & Hx & Hp).
    now apply (proj1 (find_index_None h price) Hfind x).
Qed.

(** X6. An update with a positive quantity leaves a level with that
    price and that quantity in the ladder, and the levels at other prices
    are the ones there were; when the prices of the ladder were distinct,
    every level at that price now has that quantity. *)
Theorem positive_update_sets_level (h : list ScoreItem) (price quantity : Q) :
  (0 < quantity)%Q ->
  let h' := update_heap inv h price quantity in
  (exists x, x ∈ h' /\ (get_score x == price)%Q /\ get_item x = quantity)
  /\ (forall x, ~ (get_score x == price)%Q -> (x ∈ h' <-> x ∈ h))
  /\ (NoDup (prices h) ->
      forall x, x ∈ h' -> (get_score x == price)%Q -> get_item x = quantity).
Proof.
  intros Hq. cbn zeta. unfold update_heap.
  assert (Hnz : Decimal.eqb quantity 0 = false).
  { destruct (Decimal.eqb quantity 0) eqn:E; [| reflexivity].
    apply Decimal_eqb_true in E. rewrite E in Hq. now apply Qlt_irrefl in Hq. }
  assert (Hpos : Decimal.ltb 0 quantity = true) by (now apply Decimal_ltb_true).
  destruct (find_index h price) as [index |] eqn:Hfind.
  - rewrite Hnz, Hpos.
    apply find_index_Some in Hfind as (x0 & Hx0 & Hp0).
    assert (Hnew : alter (fun x => set_item x quantity) index h !! index
                   = Some (set_item x0 quantity)).
    { now rewrite list_lookup_alter_eq, Hx0. }
    split; [| split].
    + exists (set_item x0 quantity).
      split; [now apply list_elem_of_lookup_2 in Hnew | now split].
    + intros x Hx. split; intros Hin.
      * apply list_elem_of_lookup in Hin as [j Hj].
        destruct (lookup_alter_set_item _ _ _ _ _ Hj)
          as (x1 & Hx1 & Hs & Hi & Hne & _).
        destruct (decide (j = index)) as [-> | Hji].
        -- exfalso. apply Hx. rewrite Hnew in Hj. inversion Hj; subst x.
           exact Hp0.
        -- rewrite (Hne Hji). now apply list_elem_of_lookup_2 in Hx1.
      * apply list_elem_of_lookup in Hin as [j Hj].
        destruct (decide (j = index)) as [-> | Hji].
        -- exfalso. apply Hx. rewrite Hx0 in Hj. now inversion Hj; subst x.
        -- apply (list_elem_of_lookup_2 _ j).
           rewrite list_lookup_alter_ne by congruence. exact Hj.
    + intros Hnd x Hin Hp.
      apply list_elem_of_lookup in Hin as [j Hj].
      destruct (lookup_alter_set_item _ _ _ _ _ Hj)
        as (x1 & Hx1 & Hs & Hi & _ & Heq).
      apply Heq. apply (prices_lookup_inj h j index x1 x0 Hnd Hx1 Hx0).
      rewrite Hp0, <- Hp. unfold get_score. now rewrite Hs, Hi.
  - pose proof (proj1 (find_index_None h price) Hfind) as Habsent.
    pose proof (heappush_perm h (ScoreItem_init price quantity inv)) as Hperm.
    split; [| split].
    + exists (ScoreItem_init price quantity inv).
      split; [rewrite Hperm; left |].
      split; [apply get_score_init | now destruct inv].
    + intros x Hx. rewrite Hperm, elem_of_cons. split; [| auto].
      intros [-> | Hin]; [| exact Hin].
      exfalso. apply Hx, get_score_init.
    + intros _ x Hin Hp. rewrite Hperm in Hin.
      apply elem_of_cons in Hin as [-> | Hin]; [now destruct inv |].
      exfalso. now apply (Habsent x).
Qed.

(** X7. An update with quantity zero at a price the ladder holds takes
    one level of that price out and keeps all the others; when the prices
    of the ladder were distinct, no level of that price is left. *)
Theorem zero_update_removes_level (h : list ScoreItem) (price quantity : Q)
    (x : ScoreItem) :
  (quantity == 0)%Q -> x ∈ h -> (get_score x == price)%Q ->
  let h' := update_heap inv h price quantity in
  (exists x0, (get_score x0 == price)%Q /\ h ≡ₚ x0 :: h')
  /\ (NoDup (prices h) -> forall y, y ∈ h' -> ~ (get_score y == price)%Q).
Proof.
  intros Hq Hx Hp. cbn zeta. unfold update_heap.
  destruct (find_index h price) as [index |] eqn:Hfind.
  2:{ exfalso. now apply (proj1 (find_index_None h price) Hfind x). }
  apply Decimal_eqb_true in Hq. rewrite Hq.
  apply find_index_Some in Hfind as (x0 & Hx0 & Hp0).
  split.
  - exists x0. split; [exact Hp0 |].
    rewrite heapify_perm. now apply delete_Permutation.
  - intros Hnd y Hy Hpy. rewrite heapify_perm in Hy.
    assert (Hnd' : NoDup (prices (x0 :: delete index h))).
    { now rewrite <- (prices_Permutation _ _ (delete_Permutation _ _ _ Hx0)). }
    unfold prices in Hnd'. cbn in Hnd'. apply NoDup_cons in Hnd' as [Hnin _].
    apply Hnin. rewrite (Qred_complete _ _ Hp0).
    apply (elem_of_prices (delete index h) price). now exists y.
Qed.

End LadderUpdates.


Lemma ladder_prices_stay_distinct_witness :
  NoDup (prices (update_heap true two_bids 4%Q 1%Q)).
Proof.
  apply (ladder_prices_stay_distinct true two_bids 4%Q 1%Q);
    [| discriminate].
  unfold two_bids.
  apply ladder_prices_stay_distinct; [| discriminate].
  apply ladder_prices_stay_distinct; [| discriminate].
  constructor.
Defined.


Lemma positive_update_sets_level_witness :
  exists x,
    x ∈ update_heap true two_bids 5%Q 7%Q
    /\ (get_score x == 5)%Q /\ get_item x = 7%Q.
Proof.
  apply (positive_update_sets_level true two_bids 5%Q 7%Q). reflexivity.
Defined.


Lemma zero_update_removes_level_witness :
  exists x0,
    (get_score x0 == 3)%Q
    /\ two_bids ≡ₚ x0 :: update_heap true two_bids 3%Q 0%Q.
Proof.
  apply (zero_update_removes_level true two_bids 3%Q 0%Q
           (ScoreItem_init 3 1 true)).
  - reflexivity.
  - vm_compute. repeat constructor.
  - reflexivity.
Defined.

(** * What the rules establish *)

Section RuleFacts.

Local Open Scope Q_scope.

Lemma SizeRule_false_means_compliant_aux (minimum maximum step : Q)
    (o o' : Order) :
  SizeRule_make_valid minimum maximum step o = Ok (false, o') ->
  o' = o /\ size_compliant minimum maximum step (get_size o).
Proof.
  unfold SizeRule_make_valid, size_compliant, get_size, get_maximum_size,
    get_minimum_size.
  destruct (Decimal.ltb 0 minimum && Decimal.ltb (_maximum o) minimum);
    [discriminate |].
  destruct ((Decimal.ltb 0 maximum && Decimal.ltb maximum (_minimum o))
            || Decimal.ltb (_maximum o) (_minimum o)); [discriminate |].
  destruct (Decimal.ltb 0 minimum && Decimal.ltb (_quantity o) minimum) eqn:E1.
  { destruct (Decimal.ltb 0 maximum
              && Decimal.ltb maximum (_quantity (set_size o minimum)));
      destruct (negb (Decimal.is_zero step)); try discriminate;
      match goal with
      | |- context [Decimal.rem ?a ?b] => destruct (Decimal.rem a b); cbn
      end; try discriminate;
      destruct (negb (Decimal.is_zero _)); try discriminate;
      repeat (destruct (_ && _); try discriminate). }
  destruct (Decimal.ltb 0 maximum && Decimal.ltb maximum (_quantity o)) eqn:E2.
  { destruct (negb (Decimal.is_zero step)); try discriminate;
      match goal with
      | |- context [Decimal.rem ?a ?b] => destruct (Decimal.rem a b); cbn
      end; try discriminate;
      destruct (negb (Decimal.is_zero _)); try discriminate;
      repeat (destruct (_ && _); try discriminate). }
  assert (Hmin : 0 < minimum -> minimum <= _quantity o).
  { intros H. apply Decimal_ltb_true in H. rewrite H in E1. cbn in E1.
    now apply Decimal_ltb_false. }
  assert (Hmax : 0 < maximum -> _quantity o <= maximum).
  { intros H. apply Decimal_ltb_true in H. rewrite H in E2. cbn in E2.
    now apply Decimal_ltb_false. }
  destruct (Decimal.is_zero step) eqn:Hstep; cbn.
  { intros [= <-]. repeat split; auto.
    intros Hne. exfalso. apply Hne. now apply Decimal_is_zero_true. }
  destruct (Decimal.rem (_quantity o) step) as [mod_ | e] eqn:Hrem; cbn;
    [| discriminate].
  destruct (Decimal.is_zero mod_) eqn:Hmod; cbn.
  - intros [= <-]. repeat split; auto.
    intros _. exists mod_. split; [reflexivity |].
    now apply Decimal_is_zero_true.
  - repeat (destruct (_ && _); try discriminate).
Qed.

(** X8. When [SizeRule.make_valid] answers [False] it has left the order
    as it was, and the size of the order is within the limits of the rule
    and a multiple of its step. *)
Theorem SizeRule_false_means_compliant (minimum maximum step : Q)
    (o o' : Order) :
  SizeRule_make_valid minimum maximum step o = Ok (false, o') ->
  o' = o /\ size_compliant minimum maximum step (get_size o).
Proof. apply SizeRule_false_means_compliant_aux. Qed.


(** What every rule keeps, [make_valid] keeps. *)
Lemma apply_rules_preserves (P : Order -> Prop) :
  (forall r o c o', Rule_make_valid r o = Ok (c, o') -> P o -> P o') ->
  forall rules o changes c o',
    apply_rules rules o changes = Ok (c, o') -> P o -> P o'.
Proof.
  intros Hrule rules. induction rules as [| r rest IH];
    intros o changes c o'; cbn.
  - now intros [= _ <-].
  - destruct (Rule_make_valid r o) as [[c1 o1] | e] eqn:R; cbn;
      [| discriminate].
    intros H HP. eapply IH; [exact H |]. eapply Hrule; eassumption.
Qed.

Lemma make_valid_while_preserves (P : Order -> Prop) :
  (forall r o c o', Rule_make_valid r o = Ok (c, o') -> P o -> P o') ->
  forall n rules o changes i k o',
    make_valid_while n rules o changes i = Ok (k, o') -> P o -> P o'.
Proof.
  intros Hrule n. induction n as [| n IH];
    intros rules o changes i k o'; cbn; [discriminate |].
  destruct changes; [| now intros [= _ <-]].
  destruct (apply_rules rules o false) as [[c1 o1] | e] eqn:R; cbn;
    [| discriminate].
  intros H HP. eapply IH; [exact H |].
  eapply apply_rules_preserves; eassumption.
Qed.

Lemma Order_make_valid_preserves (P : Order -> Prop) (o o' : Order) :
  (forall r o c o', Rule_make_valid r o = Ok (c, o') -> P o -> P o') ->
  Order_make_valid o = Ok o' -> P o -> P o'.
Proof.
  intros Hrule. unfold Order_make_valid.
  destruct (make_valid_while MAX (_rules (_market o)) o true 0)
    as [[k o1] | e] eqn:W; cbn; [| discriminate].
  intros [= <-]. eapply make_valid_while_preserves; eassumption.
Qed.

Lemma SizeRule_make_valid_max (minimum maximum step : Q) (o : Order)
    (c : bool) (o' : Order) :
  SizeRule_make_valid minimum maximum step o = Ok (c, o') ->
  _quantity o <= _maximum o -> _quantity o' <= _maximum o.
Proof.
  unfold SizeRule_make_valid, get_size, get_maximum_size, get_minimum_size.
  destruct (Decimal.ltb 0 minimum && Decimal.ltb (_maximum o) minimum) eqn:G1;
    [discriminate |].
  destruct ((Decimal.ltb 0 maximum && Decimal.ltb maximum (_minimum o))
            || Decimal.ltb (_maximum o) (_minimum o)); [discriminate |].
  intros H Hle.
  set (p1 := if Decimal.ltb 0 minimum && Decimal.ltb (_quantity o) minimum
             then (set_size o minimum, true) else (o, false)) in H.
  assert (P1 : _quantity p1.1 <= _maximum o /\ only_size_changed o p1.1).
  { subst p1.
    destruct (Decimal.ltb 0 minimum && Decimal.ltb (_quantity o) minimum) eqn:E;
      cbn; [| split; [exact Hle | apply only_size_changed_refl]].
    split; [| reflexivity].
    apply andb_true_iff in E as [E _]. rewrite E in G1. cbn in G1.
    now apply Decimal_ltb_false in G1. }
  destruct p1 as [o1 c1]. cbn in P1. destruct P1 as [L1 S1].
  set (p2 := if Decimal.ltb 0 maximum && Decimal.ltb maximum (_quantity o1)
             then (set_size o1 maximum, true) else (o1, c1)) in H.
  assert (P2 : _quantity p2.1 <= _maximum o /\ only_size_changed o p2.1).
  { subst p2.
    destruct (Decimal.ltb 0 maximum && Decimal.ltb maximum (_quantity o1)) eqn:E;
      cbn; [| split; assumption].
    split; [| eapply only_size_changed_trans; [exact S1 | reflexivity]].
    apply andb_true_iff in E as [_ E]. apply Decimal_ltb_true in E.
    apply Qlt_le_weak. eapply Qlt_le_trans; eassumption. }
  destruct p2 as [o2 c2]. cbn in P2. destruct P2 as [L2 S2].
  pose proof (only_size_changed_fields _ _ S2) as (_ & _ & _ & Hmax & Hmin).
  revert H.
  destruct (negb (Decimal.is_zero step)); [| now intros [= _ <-]].
  destruct (Decimal.rem (_quantity o2) step) as [mod_ | e]; cbn;
    [| discriminate].
  destruct (negb (Decimal.is_zero mod_)); [| now intros [= _ <-]].
  rewrite Hmax, Hmin.
  destruct (Decimal.leb (_minimum o) (Decimal.sub (_quantity o2) mod_)
            && Decimal.ltb (Decimal.sub (_quantity o2) mod_) (_maximum o)) eqn:F.
  - intros [= _ <-]. cbn. apply andb_true_iff in F as [_ F].
    apply Decimal_ltb_true in F. now apply Qlt_le_weak.
  - destruct (Decimal.leb (_minimum o) (Decimal.add (_quantity o2) mod_)
              && Decimal.ltb (Decimal.add (_quantity o2) mod_) (_maximum o))
      eqn:F2; [| discriminate].
    intros [= _ <-]. cbn. apply andb_true_iff in F2 as [_ F2].
    apply Decimal_ltb_true in F2. now apply Qlt_le_weak.
Qed.

Lemma Rule_make_valid_only_size (r : Rule) (o : Order) (c : bool) (o' : Order) :
  Rule_make_valid r o = Ok (c, o') -> only_size_changed o o'.
Proof.
  destruct r as [minimum maximum step | min_value]; cbn.
  - intros H. now apply SizeRule_make_valid_inv in H.
  - unfold ValueRule_make_valid.
    destruct (Decimal.ltb _ _); [| intros [= _ <-]; apply only_size_changed_refl].
    destruct (Decimal.div _ _); cbn; [| discriminate].
    destruct (Decimal.ltb _ _); [discriminate |].
    intros [= _ <-]. reflexivity.
Qed.

Lemma Rule_make_valid_max (r : Rule) (o : Order) (c : bool) (o' : Order) :
  Rule_make_valid r o = Ok (c, o') ->
  _quantity o <= _maximum o -> _quantity o' <= _maximum o'.
Proof.
  intros H Hle.
  pose proof (Rule_make_valid_only_size _ _ _ _ H) as Hs.
  apply only_size_changed_fields in Hs as (_ & _ & _ & -> & _).
  destruct r as [minimum maximum step | min_value]; cbn in H.
  - eapply SizeRule_make_valid_max; eassumption.
  - unfold ValueRule_make_valid, get_maximum_size in H.
    destruct (Decimal.ltb _ _); [| now inversion H; subst].
    destruct (Decimal.div _ _) as [min_size | e]; cbn in H; [| discriminate].
    destruct (Decimal.ltb (_maximum o) min_size) eqn:E; [discriminate |].
    inversion H; subst. cbn. now apply Decimal_ltb_false in E.
Qed.

(** X10. [make_valid] touches nothing but the size of the order, and it
    never raises the size above the maximum of the order. *)
Theorem make_valid_only_resizes_within_maximum (o o' : Order) :
  Order_make_valid o = Ok o' ->
  _quantity o <= _maximum o ->
  o' = set_size o (_quantity o') /\ _quantity o' <= _maximum o.
Proof.
  intros H Hle. split.
  - apply (Order_make_valid_preserves
             (fun x => x = set_size o (_quantity x)) o o').
    + intros r o1 c o2 Hr Ho1. apply Rule_make_valid_only_size in Hr.
      unfold only_size_changed in Hr. rewrite Hr, Ho1. reflexivity.
    + exact H.
    + now destruct o.
  - assert (Hmax : _maximum o' = _maximum o /\ _quantity o' <= _maximum o').
    { apply (Order_make_valid_preserves
               (fun x => _maximum x = _maximum o /\ _quantity x <= _maximum x)
               o o').
      - intros r o1 c o2 Hr [Hm Hq]. split.
        + apply Rule_make_valid_only_size, only_size_changed_fields in Hr.
          destruct Hr as (_ & _ & _ & -> & _). exact Hm.
        + eapply Rule_make_valid_max; eassumption.
      - exact H.
      - split; [reflexivity | exact Hle]. }
    destruct Hmax as [<- Hq]. exact Hq.
Qed.

Lemma apply_rules_unchanged (rules : list Rule) :
  Forall (fun r => is_size_rule r = true) rules ->
  forall o changes o',
    apply_rules rules o changes = Ok (false, o') ->
    o' = o /\ changes = false
    /\ Forall (fun r => complies r o) rules
    /\ apply_rules rules o false = Ok (false, o).
Proof.
  induction 1 as [| r rest Hr Hrest IH]; intros o changes o'; cbn.
  - intros [= -> ->]. repeat split. constructor.
  - destruct r as [minimum maximum step | min_value]; [| discriminate].
    cbn. destruct (SizeRule_make_valid minimum maximum step o)
      as [[c1 o1] | e] eqn:R; cbn; [| discriminate].
    intros H. apply IH in H as (-> & Hc & Hall & Hagain).
    apply orb_false_iff in Hc as [-> ->].
    apply SizeRule_false_means_compliant_aux in R as [-> Hcompl].
    repeat split; [| exact Hagain]. constructor; assumption.
Qed.

Lemma make_valid_while_exit (n : nat) :
  forall rules o changes i k o',
    make_valid_while n rules o changes i = Ok (k, o') ->
    (changes = false /\ o' = o)
    \/ exists o'', apply_rules rules o'' false = Ok (false, o').
Proof.
  induction n as [| n IH]; intros rules o changes i k o'; cbn;
    [discriminate |].
  destruct changes; [| intros [= _ <-]; now left].
  destruct (apply_rules rules o false) as [[c1 o1] | e] eqn:R; cbn;
    [| discriminate].
  intros H. apply IH in H as [[-> ->] | H]; [| now right].
  right. now exists o.
Qed.

(** X11. On a market that only has size rules, an order that
    [make_valid] returns complies with every rule of the market, and
    validating it again returns it unchanged. *)
Theorem make_valid_settles_on_size_rules (o o' : Order) :
  Forall (fun r => is_size_rule r = true) (_rules (_market o)) ->
  Order_make_valid o = Ok o' ->
  Forall (fun r => complies r o') (_rules (_market o))
  /\ Order_make_valid o' = Ok o'.
Proof.
  intros Hsize H.
  assert (Hmarket : _market o' = _market o).
  { apply (Order_make_valid_preserves (fun x => _market x = _market o) o o');
      [| exact H | reflexivity].
    intros r o1 c o2 Hr <-.
    apply Rule_make_valid_only_size, only_size_changed_fields in Hr.
    now destruct Hr as (_ & _ & -> & _). }
  unfold Order_make_valid in H.
  destruct (make_valid_while MAX (_rules (_market o)) o true 0)
    as [[k o1] | e] eqn:W; cbn in H; [| discriminate].
  inversion H; subst o1; clear H.
  apply make_valid_while_exit in W as [[? _] | [o'' Hlast]]; [discriminate |].
  apply (apply_rules_unchanged _ Hsize) in Hlast as (-> & _ & Hall & Hagain).
  split; [exact Hall |].
  unfold Order_make_valid, MAX. rewrite Hmarket. cbn [make_valid_while].
  rewrite Hagain. reflexivity.
Qed.

End RuleFacts.

Lemma SizeRule_false_means_compliant_witness :
  order_on_a_step = order_on_a_step
  /\ size_compliant (1 # 2) 0 (1 # 2) (get_size order_on_a_step).
Proof.
  apply (SizeRule_false_means_compliant (1 # 2) 0 (1 # 2)
           order_on_a_step order_on_a_step).
  vm_compute. reflexivity.
Defined.


Lemma make_valid_only_resizes_within_maximum_witness :
  set_size order_on_half_steps 2
  = set_size order_on_half_steps (_quantity (set_size order_on_half_steps 2))
  /\ (_quantity (set_size order_on_half_steps 2)
      <= _maximum order_on_half_steps)%Q.
Proof.
  apply (make_valid_only_resizes_within_maximum order_on_half_steps
           (set_size order_on_half_steps 2)).
  - vm_compute. reflexivity.
  - vm_compute. discriminate.
Defined.

Lemma make_valid_settles_on_size_rules_witness :
  Forall (fun r => complies r (set_size order_on_half_steps 2))
    (_rules (_market order_on_half_steps))
  /\ Order_make_valid (set_size order_on_half_steps 2)
     = Ok (set_size order_on_half_steps 2).
Proof.
  apply (make_valid_settles_on_size_rules order_on_half_steps
           (set_size order_on_half_steps 2)).
  - repeat constructor.
  - vm_compute. reflexivity.
Defined.

(** * The path enumerator *)

Section PathEnumerator.

Variable st : Store.
Variable S : ExchangeCurrency.

Lemma helper_terminal (fuel : nat) (cur : ExchangeCurrency)
    (path : list ExchangeCurrency) :
  1 < length path -> get_code cur = get_code S ->
  helper st S (Datatypes.S fuel) cur path = [path].
Proof.
  intros Hlen Hcode. cbn [helper].
  apply Nat.ltb_lt in Hlen. rewrite Hlen, Hcode, String.eqb_refl.
  reflexivity.
Qed.

Lemma helper_spec (fuel : nat) :
  forall (pre : list ExchangeCurrency) (cur : ExchangeCurrency)
         (p : list ExchangeCurrency),
    last (S :: pre) = Some cur ->
    Forall (fun v => get_code v <> get_code S) pre ->
    NoDup pre ->
    p ∈ helper st S fuel cur (S :: pre)
    <-> exists mid last_,
          p = S :: pre ++ mid ++ [last_]
          /\ length (mid ++ [last_]) < fuel
          /\ get_code last_ = get_code S
          /\ Forall (fun v => get_code v <> get_code S) mid
          /\ NoDup (pre ++ mid)
          /\ walk st (bool_decide (pre = [])) cur (mid ++ [last_]).
Proof.
  induction fuel as [| fuel IH]; intros pre cur p Hcur Hcodes Hnd.
  - cbn. split; [intros H; inversion H |].
    intros (mid & last_ & _ & Hlen & _). lia.
  - cbn [helper].
    assert (Hcond : (1 <? length (S :: pre))
                    && String.eqb (get_code S) (get_code cur) = false).
    { destruct (decide (pre = [])) as [-> | Hpre]; [reflexivity |].
      apply andb_false_iff. right. apply String.eqb_neq.
      assert (Hin : cur ∈ pre).
      { destruct pre as [| v pre']; [congruence |].
        apply last_Some_elem_of. exact Hcur. }
      intros Heq. apply Forall_forall with (x := cur) in Hcodes; auto. }
    rewrite Hcond. clear Hcond.
    rewrite list_elem_of_In, in_flat_map.
    assert (Hone : (length (S :: pre) =? 1) = bool_decide (pre = [])).
    { destruct pre; reflexivity. }
    split.
    + intros (key & Hkey & Hp).
      apply list_elem_of_In in Hkey, Hp.
      destruct (get_market st cur key) as [edge |] eqn:Hedge;
        [| inversion Hp].
      rewrite Hone in Hp.
      destruct (bool_decide (pre = []) && _deposit (market edge)) eqn:Hdep;
        [inversion Hp |].
      destruct (bool_decide (currency edge ∈ S :: pre)
                && negb (bool_decide (head (S :: pre) = Some (currency edge))))
        eqn:Hskip; [inversion Hp |].
      assert (Hlinked : linked st (bool_decide (pre = [])) cur (currency edge)).
      { exists key, edge. repeat split; auto.
        intros Hfirst. rewrite Hfirst in Hdep. exact Hdep. }
      destruct (decide (get_code (currency edge) = get_code S)) as [Hc | Hc].
      * destruct fuel as [| fuel']; [inversion Hp |].
        change (S :: pre ++ [currency edge])
          with ((S :: pre) ++ [currency edge]) in Hp.
        rewrite helper_terminal in Hp.
        2:{ rewrite length_app. cbn. lia. }
        2:{ exact Hc. }
        apply list_elem_of_singleton in Hp. subst p.
        exists [], (currency edge). rewrite app_nil_r. cbn [app length walk].
        split; [reflexivity |]. split; [lia |]. split; [exact Hc |].
        split; [constructor |]. split; [exact Hnd |]. split; [exact Hlinked | exact I].
      * assert (Hnew : currency edge ∉ S :: pre).
        { intros Hin. apply andb_false_iff in Hskip as [Hskip | Hskip].
          - apply bool_decide_eq_false in Hskip. contradiction.
          - apply negb_false_iff, bool_decide_eq_true in Hskip.
            cbn in Hskip. inversion Hskip as [HS]. apply Hc. now rewrite <- HS. }
        apply not_elem_of_cons in Hnew as [HneS Hnpre].
        apply (IH (pre ++ [currency edge]) (currency edge) p) in Hp.
        -- destruct Hp as (mid & last_ & -> & Hlen & Hlast & Hmid & Hnd' & Hwalk).
           exists (currency edge :: mid), last_.
           assert (Hf : bool_decide (pre ++ [currency edge] = []) = false).
           { apply bool_decide_eq_false. now destruct pre. }
           rewrite Hf in Hwalk. rewrite <- app_assoc in Hnd'.
           split; [now rewrite <- !app_assoc |].
           split; [cbn [app length] in *; lia |]. split; [exact Hlast |].
           split; [now constructor |]. split; [exact Hnd' |].
           cbn [app walk]. split; [exact Hlinked | exact Hwalk].
        -- change (S :: pre ++ [currency edge])
             with ((S :: pre) ++ [currency edge]).
           apply last_snoc.
        -- apply Forall_app. split; [exact Hcodes |]. now constructor.
        -- apply NoDup_app. split; [exact Hnd |]. split.
           ++ intros x Hx Hx'. apply list_elem_of_singleton in Hx'. now subst.
           ++ apply NoDup_singleton.
    + intros (mid & last_ & -> & Hlen & Hlast & Hmid & Hnd' & Hwalk).
      destruct mid as [| v mid'].
      * cbn in Hwalk. destruct Hwalk as [(key & edge & Hkey & Hedge & <- & Hdep) _].
        exists key. split; [now apply list_elem_of_In |].
        apply list_elem_of_In. rewrite Hedge, Hone.
        assert (Hd : bool_decide (pre = []) && _deposit (market edge) = false).
        { destruct (bool_decide (pre = [])); [| reflexivity].
          now rewrite Hdep. }
        rewrite Hd.
        assert (Hskip : bool_decide (currency edge ∈ S :: pre)
                        && negb (bool_decide
                                   (head (S :: pre) = Some (currency edge)))
                        = false).
        { destruct (decide (currency edge = S)) as [-> | Hne].
          - apply andb_false_iff. right. apply negb_false_iff.
            now apply bool_decide_eq_true.
          - apply andb_false_iff. left. apply bool_decide_eq_false.
            intros Hin. apply elem_of_cons in Hin as [? | Hin]; [contradiction |].
            pose proof (proj1 (Forall_forall _ _) Hcodes _ Hin) as Hcode.
            cbn in Hcode. congruence. }
        rewrite Hskip.
        destruct fuel as [| fuel']; [cbn in Hlen; lia |].
        change (S :: pre ++ [currency edge])
          with ((S :: pre) ++ [currency edge]).
        rewrite helper_terminal.
        -- apply list_elem_of_singleton. reflexivity.
        -- rewrite length_app. cbn. lia.
        -- exact Hlast.
      * cbn [app walk] in Hwalk.
        destruct Hwalk as [(key & edge & Hkey & Hedge & <- & Hdep) Hwalk].
        exists key. split; [now apply list_elem_of_In |].
        apply list_elem_of_In. rewrite Hedge, Hone.
        assert (Hd : bool_decide (pre = []) && _deposit (market edge) = false).
        { destruct (bool_decide (pre = [])); [| reflexivity].
          now rewrite Hdep. }
        rewrite Hd.
        apply Forall_cons in Hmid as [Hv Hmid].
        assert (Hnpre : currency edge ∉ pre).
        { intros Hin. apply NoDup_app in Hnd' as (_ & Hdisj & _).
          apply (Hdisj _ Hin). left. }
        assert (Hskip : bool_decide (currency edge ∈ S :: pre)
                        && negb (bool_decide
                                   (head (S :: pre) = Some (currency edge)))
                        = false).
        { apply andb_false_iff. left. apply bool_decide_eq_false.
          intros Hin. apply elem_of_cons in Hin as [HS | Hin];
            [| contradiction].
          apply Hv. now rewrite HS. }
        rewrite Hskip.
        apply (IH (pre ++ [currency edge]) (currency edge)).
        -- change (S :: pre ++ [currency edge])
             with ((S :: pre) ++ [currency edge]).
           apply last_snoc.
        -- apply Forall_app. split; [exact Hcodes |]. now constructor.
        -- apply NoDup_app in Hnd' as (Hnd1 & Hdisj & Hnd2).
           apply NoDup_app. split; [exact Hnd1 |]. split.
           ++ intros x Hx Hx'. apply list_elem_of_singleton in Hx'. now subst.
           ++ apply NoDup_singleton.
        -- exists mid', last_.
           assert (Hf : bool_decide (pre ++ [currency edge] = []) = false).
           { apply bool_decide_eq_false. now destruct pre. }
           rewrite Hf.
           split; [now rewrite <- !app_assoc |].
           split; [cbn [app length] in Hlen; lia |]. split; [exact Hlast |].
           split; [exact Hmid |].
           split; [now rewrite <- app_assoc |]. exact Hwalk.
Qed.

End PathEnumerator.

(** X12. [generate_all_paths(S, max_depth)] returns exactly the walks of
    the graph that start at [S] over an entry that is not a deposit, have
    at most [max_depth] vertices, end at the first vertex after [S] that
    carries the currency code of [S], and whose vertices in between are
    pairwise distinct. *)
Theorem generate_all_paths_spec (st : Store) (S : ExchangeCurrency)
    (max_depth : nat) (p : list ExchangeCurrency) :
  p ∈ generate_all_paths st S max_depth <-> bounded_code_cycle st S max_depth p.
Proof.
  unfold generate_all_paths, bounded_code_cycle.
  rewrite (helper_spec st S max_depth [] S p eq_refl (Forall_nil_2 _) (NoDup_nil_2)).
  split; intros (mid & last_ & -> & Hlen & Hlast & Hmid & Hnd & Hwalk);
    exists mid, last_; cbn [app length] in *;
    (split; [reflexivity |]); (split; [lia |]); auto.
Qed.

(** * The market graph *)

Section GraphFacts.

Lemma lookup_edge_app (es es' : Edges) (key : string) :
  lookup_edge (es ++ es') key
  = match lookup_edge es key with
    | Some e => Some e
    | None => lookup_edge es' key
    end.
Proof.
  induction es as [| [k e] rest IH]; cbn; [reflexivity |].
  now destruct (String.eqb k key).
Qed.

Lemma has_key_lookup_edge (es : Edges) (key : string) :
  has_key es key = false <-> lookup_edge es key = None.
Proof.
  induction es as [| [k e] rest IH]; cbn; [tauto |].
  destruct (String.eqb k key); [| exact IH].
  split; discriminate.
Qed.

(** The entries of a store after one entry has been appended. *)
Lemma get_market_insert_new (st : Store) (self : ExchangeCurrency)
    (k : string) (e : Edge) (v : ExchangeCurrency) (key : string) (x : Edge) :
  has_key (edges_of st self) k = false ->
  get_market (<[self := edges_of st self ++ [(k, e)]]> st) v key = Some x
  <-> get_market st v key = Some x \/ (v = self /\ key = k /\ x = e).
Proof.
  intros Hnew. unfold get_market.
  destruct (decide (v = self)) as [-> | Hne].
  - rewrite edges_of_insert, lookup_edge_app.
    apply has_key_lookup_edge in Hnew.
    destruct (lookup_edge (edges_of st self) key) as [y |] eqn:Hy.
    + split; [auto |]. intros [H | (_ & -> & _)]; [exact H | congruence].
    + cbn. destruct (String.eqb k key) eqn:Hk.
      * apply String.eqb_eq in Hk. subst k. split.
        -- intros [= <-]. right. auto.
        -- intros [H | (_ & _ & ->)]; [discriminate | reflexivity].
      * apply String.eqb_neq in Hk. split; [discriminate |].
        intros [H | (_ & Hkey & _)]; [discriminate | congruence].
  - rewrite edges_of_insert_ne by congruence.
    split; [auto |]. intros [H | (Hv & _)]; [exact H | contradiction].
Qed.

Lemma add_neighbour_currency_entries (fuel : nat) :
  forall (st : Store) (self target : ExchangeCurrency) (m : Market)
         (st' : Store),
    add_neighbour_currency fuel st self target m = Some st' ->
    (forall v key edge,
        get_market st v key = Some edge -> get_market st' v key = Some edge)
    /\ (forall v key edge,
           get_market st' v key = Some edge ->
           get_market st v key = Some edge
           \/ (v = self /\ key = get_code target /\ edge = mkEdge target m)
           \/ (v = target /\ key = get_code self /\ edge = mkEdge self m)).
Proof.
  induction fuel as [| fuel IH]; intros st self target m st'; cbn;
    [discriminate |].
  destruct (has_key (edges_of st self) (get_code target)) eqn:Hkey.
  - intros [= <-]. split; auto.
  - intros H. apply IH in H as [Hkept Horigin]. split.
    + intros v key edge Hold. apply Hkept.
      apply get_market_insert_new; auto.
    + intros v key edge Hnew.
      destruct (Horigin v key edge Hnew) as [H1 | [H2 | H3]]; [| tauto | tauto].
      apply get_market_insert_new in H1; [| exact Hkey]. tauto.
Qed.

Lemma add_neighbour_currency_well_keyed (fuel : nat) (st : Store)
    (self target : ExchangeCurrency) (m : Market) (st' : Store) :
  add_neighbour_currency fuel st self target m = Some st' ->
  well_keyed st -> well_keyed st'.
Proof.
  intros H Hwk v key edge Hedge.
  apply add_neighbour_currency_entries in H as [_ Horigin].
  destruct (Horigin v key edge Hedge) as [H1 | [(_ & -> & ->) | (_ & -> & ->)]];
    [now apply (Hwk v) | reflexivity | reflexivity].
Qed.

Lemma add_neighbour_currency_joins (fuel : nat) (st : Store)
    (self target : ExchangeCurrency) (m : Market) (st' : Store) :
  add_neighbour_currency fuel st self target m = Some st' ->
  _base m = self -> _quote m = target ->
  edges_join_their_ends st -> edges_join_their_ends st'.
Proof.
  intros H Hbase Hquote Hj v key edge Hedge.
  apply add_neighbour_currency_entries in H as [_ Horigin].
  destruct (Horigin v key edge Hedge) as [H1 | [(-> & _ & ->) | (-> & _ & ->)]];
    [now apply (Hj v key) | left; auto | right; auto].
Qed.

Lemma well_keyed_no_edges (st : Store) :
  (forall v, edges_of st v = []) -> well_keyed st.
Proof.
  intros Hnone v key edge. unfold get_market. rewrite Hnone. discriminate.
Qed.

(** X13. [add_neighbour_currency] never changes or removes an entry of
    the graph; the entries it leaves are the ones there were, the entry
    from [self] to the target and the entry from the target back to
    [self], each filed under the code of the vertex it leads to and
    carrying the market given. *)
Theorem add_neighbour_currency_only_adds (fuel : nat) (st : Store)
    (self target : ExchangeCurrency) (m : Market) (st' : Store) :
  add_neighbour_currency fuel st self target m = Some st' ->
  (forall v key edge,
      get_market st v key = Some edge -> get_market st' v key = Some edge)
  /\ (forall v key edge,
         get_market st' v key = Some edge ->
         get_market st v key = Some edge
         \/ (v = self /\ key = get_code target /\ edge = mkEdge target m)
         \/ (v = target /\ key = get_code self /\ edge = mkEdge self m)).
Proof. apply add_neighbour_currency_entries. Qed.

(** What [Path.add_currency] makes of a walk: one future order per
    step, over the market of the entry, on the side that pays with the
    vertex that is left. *)
Lemma walk_path_orders (st : Store) :
  well_keyed st -> edges_join_their_ends st ->
  forall (vertices : list ExchangeCurrency) (a : ExchangeCurrency)
         (first : bool),
    walk st first a vertices ->
    exists legs,
      path_orders st a vertices = Some legs
      /\ length legs = length vertices
      /\ (forall i l x y,
             legs !! i = Some l ->
             (a :: vertices) !! i = Some x -> vertices !! i = Some y ->
             forall o,
               _side o = side l -> _market o = fo_market l ->
               get_source_currency o = x /\ get_target_currency o = y)
      /\ (first = true ->
          forall l, head legs = Some l -> _deposit (fo_market l) = false).
Proof.
  intros Hwk Hjoin vertices.
  induction vertices as [| b rest IH]; intros a first Hwalk.
  - exists []. cbn. repeat split; auto; intros; discriminate.
  - destruct Hwalk as [(key & edge & _ & Hedge & Hb & Hdep) Hrest].
    pose proof (Hwk a key edge Hedge) as Hkey. rewrite Hb in Hkey. subst key.
    destruct (IH b false Hrest) as (legs & Hlegs & Hlen & Hends & _).
    pose proof (Hjoin a _ edge Hedge) as Hj. rewrite Hb in Hj.
    exists (mkFutureOrder
              (if ExchangeCurrency_eqb (_base (market edge)) a
               then SELL else BUY) (market edge) :: legs).
    split; [| split; [| split]].
    + cbn [path_orders]. unfold future_order. now rewrite Hedge, Hlegs.
    + cbn. now rewrite Hlen.
    + intros [| i] l x y Hl Hx Hy o Hside Hmarket.
      * cbn in Hl, Hx, Hy. inversion Hl; subst l.
        inversion Hx; subst x. inversion Hy; subst y. cbn in Hside, Hmarket.
        unfold get_source_currency, get_target_currency.
        rewrite Hside, Hmarket. unfold ExchangeCurrency_eqb.
        destruct (bool_decide (_base (market edge) = a)) eqn:E.
        -- apply bool_decide_eq_true in E.
           destruct Hj as [[_ Hq] | [Hq Hbq]]; split; congruence.
        -- apply bool_decide_eq_false in E.
           destruct Hj as [[Hbq _] | [Hq Hbq]]; [contradiction |].
           split; assumption.
      * cbn in Hl, Hx, Hy. eapply Hends; eassumption.
    + intros Hfirst l Hl. cbn in Hl. inversion Hl; subst l. cbn. auto.
Qed.

(** X14. On a graph built by the exchanges (entries filed under the code
    of the vertex they lead to, over a market between the two vertices),
    a [Path] can be built for every path that [generate_all_paths]
    returns: [add_currency] finds an entry at every step, there is one
    future order per step, the first one not over a deposit, and an order
    made for the [i]-th of them pays with the [i]-th vertex of the path
    and yields the next one. *)
Theorem generated_paths_have_legs (st : Store) (start : ExchangeCurrency)
    (max_depth : nat) (p : list ExchangeCurrency) :
  well_keyed st -> edges_join_their_ends st ->
  p ∈ generate_all_paths st start max_depth ->
  exists legs,
    path_orders st start (tail p) = Some legs
    /\ length legs = length p - 1
    /\ (forall i l a b,
           legs !! i = Some l -> p !! i = Some a -> p !! (S i) = Some b ->
           forall o,
             _side o = side l -> _market o = fo_market l ->
             get_source_currency o = a /\ get_target_currency o = b)
    /\ (forall l, head legs = Some l -> _deposit (fo_market l) = false).
Proof.
  intros Hwk Hjoin Hp. unfold generate_all_paths in Hp.
  apply (helper_spec st start max_depth [] start p eq_refl
           (Forall_nil_2 _) (NoDup_nil_2)) in Hp.
  destruct Hp as (mid & last_ & -> & _ & _ & _ & _ & Hwalk).
  cbn [app tail]. cbn [bool_decide decide_rel] in Hwalk.
  destruct (walk_path_orders st Hwk Hjoin (mid ++ [last_]) start true Hwalk)
    as (legs & Hlegs & Hlen & Hends & Hfirst).
  exists legs. split; [exact Hlegs |]. split; [cbn; lia |].
  split; [| now apply Hfirst].
  intros i l a b Hl Ha Hb. now apply (Hends i l a b).
Qed.

End GraphFacts.

Lemma triangle_graph_built :
  well_keyed triangle_graph /\ edges_join_their_ends triangle_graph.
Proof.
  unfold triangle_graph. cbn zeta.
  set (usdt := ("USDT", "Binance") : ExchangeCurrency).
  set (btc := ("BTC", "Binance") : ExchangeCurrency).
  set (eth := ("ETH", "Binance") : ExchangeCurrency).
  set (vertices := <[eth := []]> (<[btc := []]> (<[usdt := []]> ∅)) : Store).
  assert (Hempty : forall v, edges_of vertices v = []).
  { intros v. unfold edges_of, vertices.
    destruct (decide (v = eth)) as [-> | ?];
      [now rewrite lookup_insert_eq | rewrite lookup_insert_ne by congruence].
    destruct (decide (v = btc)) as [-> | ?];
      [now rewrite lookup_insert_eq | rewrite lookup_insert_ne by congruence].
    destruct (decide (v = usdt)) as [-> | ?];
      [now rewrite lookup_insert_eq | rewrite lookup_insert_ne by congruence].
    reflexivity. }
  assert (H0 : well_keyed vertices /\ edges_join_their_ends vertices).
  { split; intros v key edge; unfold get_market; rewrite Hempty;
      discriminate. }
  destruct H0 as [Hwk0 Hj0].
  destruct (add_neighbour_currency_spec vertices btc usdt
              (Market_init btc usdt "BTCUSDT" "Binance" 0%Q 0%Q false))
    as (st1 & E1 & _).
  rewrite E1. cbn [mbind option_bind].
  destruct (add_neighbour_currency_spec st1 eth usdt
              (Market_init eth usdt "ETHUSDT" "Binance" 0%Q 0%Q false))
    as (st2 & E2 & _).
  rewrite E2. cbn [mbind option_bind].
  destruct (add_neighbour_currency_spec st2 eth btc
              (Market_init eth btc "ETHBTC" "Binance" 0%Q 0%Q false))
    as (st3 & E3 & _).
  rewrite E3. cbn [default].
  split.
  - eapply add_neighbour_currency_well_keyed; [exact E3 |].
    eapply add_neighbour_currency_well_keyed; [exact E2 |].
    eapply add_neighbour_currency_well_keyed; [exact E1 | exact Hwk0].
  - eapply add_neighbour_currency_joins; [exact E3 | reflexivity ..|].
    eapply add_neighbour_currency_joins; [exact E2 | reflexivity ..|].
    eapply add_neighbour_currency_joins; [exact E1 | reflexivity ..| exact Hj0].
Qed.

Lemma add_neighbour_currency_only_adds_witness :
  get_market two_exchanges_traded ("BTC", "Poloniex") "BTC"
  = Some (mkEdge ("BTC", "Binance")
            (deposit_market ("BTC", "Poloniex") ("BTC", "Binance") "Poloniex")).
Proof.
  apply (proj1 (add_neighbour_currency_only_adds 3 two_exchanges_joined
                  ("BTC", "Poloniex") ("USDT", "Poloniex")
                  (Market_init ("BTC", "Poloniex") ("USDT", "Poloniex")
                     "USDT_BTC" "Poloniex" 0%Q 0%Q false)
                  two_exchanges_traded ltac:(vm_compute; reflexivity))).
  vm_compute. reflexivity.
Defined.

Lemma generated_paths_have_legs_witness :
  exists legs,
    path_orders triangle_graph ("USDT", "Binance")
      [("BTC", "Binance"); ("ETH", "Binance"); ("USDT", "Binance")]
    = Some legs
    /\ length legs = 3.
Proof.
  destruct (generated_paths_have_legs triangle_graph ("USDT", "Binance") 4
              [("USDT", "Binance"); ("BTC", "Binance"); ("ETH", "Binance");
               ("USDT", "Binance")]
              (proj1 triangle_graph_built) (proj2 triangle_graph_built))
    as (legs & Hlegs & Hlen & _).
  - vm_compute. repeat constructor.
  - exists legs. split; [exact Hlegs | exact Hlen].
Defined.

(** * The path order generator: orders and legs *)

Section OrdersAndLegs.

Local Open Scope Q_scope.

Lemma Order_make_valid_resizes (o o' : Order) :
  Order_make_valid o = Ok o' ->
  _quantity o <= _maximum o ->
  only_size_changed o o' /\ _quantity o' <= _maximum o.
Proof.
  intros H Hle.
  assert (Hinv : only_size_changed o o' /\ _quantity o' <= _maximum o').
  { apply (Order_make_valid_preserves
             (fun x => only_size_changed o x /\ _quantity x <= _maximum x)
             o o'); [| exact H | split; [apply only_size_changed_refl | exact Hle]].
    intros r o1 c o2 Hr [Hs Hq]. split.
    - eapply only_size_changed_trans; [exact Hs |].
      eapply Rule_make_valid_only_size; exact Hr.
    - eapply Rule_make_valid_max; eassumption. }
  destruct Hinv as [Hs Hq]. split; [exact Hs |].
  apply only_size_changed_fields in Hs as (_ & _ & _ & Hmax & _).
  now rewrite <- Hmax.
Qed.

Lemma set_target_amount_revised (o : Order) (amount : Q) (include_fees : bool)
    (o' : Order) :
  set_target_amount o amount include_fees = Ok o' ->
  _side o' = _side o /\ _market o' = _market o /\ _price o' = _price o
  /\ _maximum o' = _maximum o /\ _quantity o' <= _maximum o'.
Proof.
  unfold set_target_amount.
  set (new_size := match _side o with
                   | BUY => _
                   | SELL => _
                   end).
  destruct new_size as [ns | e]; unfold mbind, result_bind; cbv beta iota;
    [| discriminate].
  destruct (Decimal.ltb (_maximum o) ns) eqn:E; [discriminate |].
  intros H. apply Order_make_valid_resizes in H as [Hs Hq].
  - apply only_size_changed_fields in Hs as (Hp & Hsd & Hm & Hmax & _).
    cbn in *. repeat split; auto. now rewrite Hmax.
  - cbn. now apply Decimal_ltb_false in E.
Qed.

Lemma revise_orders_spec (first_source : Q) (reversed_orders : list Order) :
  forall tmp_orders res,
    revise_orders first_source reversed_orders tmp_orders = Ok res ->
    exists revd,
      res = revd ++ tmp_orders /\ Forall2 revised (rev reversed_orders) revd.
Proof.
  induction reversed_orders as [| o rest IH]; intros tmp res; cbn.
  - intros [= <-]. exists []. split; [reflexivity | constructor].
  - destruct (is_deposit o) eqn:D; cbn.
    + intros H. apply IH in H as (revd & -> & Hall).
      exists (revd ++ [set_size o first_source]).
      split; [now rewrite <- app_assoc |].
      apply Forall2_app; [exact Hall |]. constructor; [| constructor].
      unfold revised. cbn. repeat split; auto. intros; congruence.
    + destruct (set_target_amount o first_source true) as [c | e] eqn:T;
        cbn; [| discriminate].
      intros H. apply IH in H as (revd & -> & Hall).
      exists (revd ++ [c]). split; [now rewrite <- app_assoc |].
      apply Forall2_app; [exact Hall |]. constructor; [| constructor].
      apply set_target_amount_revised in T as (? & ? & ? & ? & ?).
      unfold revised. repeat split; auto.
Qed.

Lemma order_for_leg_revised (x : FutureOrder) (o o' : Order) :
  order_for_leg x o -> revised o o' -> order_for_leg x o'.
Proof.
  intros (Hs & Hm & top & Htop & Hp & Hmax & Hq) (Rs & Rm & Rp & Rmax & Rq).
  split; [congruence |]. split; [congruence |].
  exists top. split; [exact Htop |]. split; [congruence |].
  split; [now rewrite Rmax |].
  intros Hd. apply Rq. unfold is_deposit in *. now rewrite <- Rm.
Qed.

Lemma generate_orders_loop_legs (legs : list FutureOrder) :
  forall (done : list FutureOrder) (orders : list Order) (current_amount : Q)
         (res : list Order),
    generate_orders_loop legs orders current_amount = Ok (Some res) ->
    Forall2 order_for_leg done orders ->
    Forall2 order_for_leg (done ++ legs) res.
Proof.
  induction legs as [| x rest IH]; intros done orders current_amount res.
  - cbn. intros [= <-]. now rewrite app_nil_r.
  - cbn [generate_orders_loop]. intros H Hdone.
    fold (leg_price x) in H.
    destruct (leg_price x) as [top |] eqn:Htop; [| discriminate].
    unfold or_none, mbind, result_bind in H.
    destruct (match side x with
              | BUY => Decimal.div current_amount (get_score top)
              | SELL => Ok current_amount
              end) as [quantity | e] eqn:Hq; cbv beta iota zeta in H;
      [| discriminate].
    set (reduce := Decimal.ltb (get_item top) quantity) in *.
    set (quantity' := if reduce then get_item top else quantity) in *.
    destruct (Order_make_valid
                (Order_init (get_score top) quantity' (side x) (fo_market x)
                   quantity' 0)) as [order | e] eqn:Hvalid;
      [| destruct e; discriminate].
    assert (Hnew : order_for_leg x order).
    { apply Order_make_valid_resizes in Hvalid as [Hs Hle];
        [| apply Qle_refl].
      apply only_size_changed_fields in Hs as (Hp & Hsd & Hm & Hmax & _).
      cbn in *. split; [exact Hsd |]. split; [exact Hm |].
      exists top. split; [exact Htop |]. split; [exact Hp |].
      rewrite Hmax. split; [| intros _; exact Hle].
      unfold quantity', reduce.
      destruct (Decimal.ltb (get_item top) quantity) eqn:E;
        [apply Qle_refl | now apply Decimal_ltb_false in E]. }
    replace (done ++ x :: rest) with ((done ++ [x]) ++ rest)
      by (now rewrite <- app_assoc).
    destruct reduce.
    + destruct orders as [| first others].
      * apply IH with (done := done ++ [x]) in H; [exact H |].
        inversion Hdone; subst. cbn. constructor; [exact Hnew | constructor].
      * destruct (revise_orders (get_source_amount first)
                    (rev (first :: others)) [order]) as [tmp | e] eqn:Hrev;
          [| destruct e; discriminate].
        apply revise_orders_spec in Hrev as (revd & -> & Hall).
        rewrite rev_involutive in Hall.
        apply IH with (done := done ++ [x]) in H; [exact H |].
        apply Forall2_app; [| constructor; [exact Hnew | constructor]].
        clear -Hdone Hall. revert revd Hall.
        induction Hdone as [| y o ys os Hy Hys IHd]; intros revd Hall;
          inversion Hall; subst; constructor.
        -- eapply order_for_leg_revised; eassumption.
        -- now apply IHd.
    + apply IH with (done := done ++ [x]) in H; [exact H |].
      apply Forall2_app; [exact Hdone |]. constructor; [exact Hnew | constructor].
Qed.

(** X15. When [Path.generate_orders] returns orders, it returns one per
    leg of the path and in their order: each on the side and market of
    its leg, at the price of the best level of that side of the book, for
    a maximum that is within the size of that level, and, deposits
    apart, for a size within that maximum. *)
Theorem generate_orders_follows_legs (legs : list FutureOrder)
    (initial_amount : Q) (orders : list Order) :
  generate_orders legs initial_amount = Ok (Some orders) ->
  Forall2 order_for_leg legs orders.
Proof.
  intros H. unfold generate_orders in H.
  apply (generate_orders_loop_legs legs [] [] initial_amount orders H).
  constructor.
Qed.







End OrdersAndLegs.

Lemma generate_orders_follows_legs_witness :
  Forall2 order_for_leg (firstn 2 capped_triangle)
    [triangle_order_1; triangle_order_2].
Proof.
  apply (generate_orders_follows_legs (firstn 2 capped_triangle) 10%Q
           [triangle_order_1; triangle_order_2]).
  vm_compute. reflexivity.
Defined.


(** * Chains of the executor *)

Section Chains.

Variable bal : Balances.

Lemma split_at_executable_tails (orders : list Order) :
  forall tmp_orders,
    Forall (fun o => can_be_executed bal o = false) (tail tmp_orders) ->
    Forall (fun chain =>
              Forall (fun o => can_be_executed bal o = false) (tail chain))
      (split_at_executable bal tmp_orders orders).
Proof.
  induction orders as [| o rest IH]; intros tmp Htmp; cbn.
  - constructor; [exact Htmp | constructor].
  - destruct (can_be_executed bal o) eqn:E.
    + apply Forall_app. split.
      * destruct tmp as [| t tmp']; cbn;
          [constructor | constructor; [exact Htmp | constructor]].
      * apply IH. constructor.
    + apply IH. destruct tmp as [| t tmp']; cbn; [constructor |].
      cbn in Htmp. apply Forall_app. split; [exact Htmp |].
      constructor; [exact E | constructor].
Qed.

Lemma split_at_executable_first (orders : list Order) :
  forall t tmp_orders,
    exists chain chains,
      split_at_executable bal (t :: tmp_orders) orders = chain :: chains
      /\ head chain = Some t.
Proof.
  induction orders as [| o rest IH]; intros t tmp; cbn.
  - eexists _, _. split; reflexivity.
  - destruct (can_be_executed bal o).
    + eexists _, _. split; reflexivity.
    + apply (IH t (tmp ++ [o])).
Qed.

Lemma split_at_executable_heads (orders : list Order) (o : Order) :
  o ∈ orders -> can_be_executed bal o = true ->
  forall tmp_orders,
    exists chain,
      chain ∈ split_at_executable bal tmp_orders orders
      /\ head chain = Some o.
Proof.
  intros Hin Hexec. induction orders as [| a rest IH]; intros tmp;
    [inversion Hin |].
  apply elem_of_cons in Hin as [<- | Hin]; cbn.
  - rewrite Hexec.
    destruct (split_at_executable_first rest o []) as (c & cs & E & Hc).
    exists c. split; [| exact Hc].
    apply elem_of_app. right. rewrite E. left.
  - destruct (can_be_executed bal a).
    + destruct (IH Hin [a]) as (c & Hc & Hh). exists c. split; [| exact Hh].
      apply elem_of_app. now right.
    + apply (IH Hin).
Qed.

(** X17. In the chains of [parallelize_orders] only the first order of a
    chain can be paid from the balances: no later order of a chain can be
    executed, and every order of the input that is not a deposit and can
    be executed begins a chain. *)
Theorem chains_begin_at_executable_orders (orders : list Order) :
  Forall (fun chain =>
            Forall (fun o => can_be_executed bal o = false) (tail chain))
    (parallelize_orders bal orders)
  /\ (forall o,
         o ∈ orders -> is_deposit o = false -> can_be_executed bal o = true ->
         exists chain,
           chain ∈ parallelize_orders bal orders /\ head chain = Some o).
Proof.
  unfold parallelize_orders. split.
  - induction (between_deposits orders) as [| g gs IH]; cbn; [constructor |].
    apply Forall_app. split; [| exact IH].
    apply split_at_executable_tails. constructor.
  - intros o Hin Hdep Hexec.
    assert (Hg : exists g, g ∈ between_deposits orders /\ o ∈ g).
    { assert (Ho : o ∈ concat (between_deposits orders)).
      { rewrite between_deposits_concat. apply list_elem_of_In.
        apply List.filter_In. split; [now apply list_elem_of_In |].
        now rewrite Hdep. }
      apply list_elem_of_In, in_concat in Ho as (g & Hg & Ho).
      exists g. split; now apply list_elem_of_In. }
    destruct Hg as (g & Hg & Ho).
    destruct (split_at_executable_heads g o Ho Hexec []) as (c & Hc & Hh).
    exists c. split; [| exact Hh].
    apply list_elem_of_In, in_flat_map. exists g.
    split; now apply list_elem_of_In.
Qed.

Lemma split_at_executable_empty (orders : list Order) :
  forall tmp_orders,
    [] ∈ split_at_executable bal tmp_orders orders
    <-> tmp_orders = [] /\ orders = [].
Proof.
  induction orders as [| o rest IH]; intros tmp; cbn.
  - rewrite list_elem_of_singleton. split; [intros <-; auto | now intros [-> _]].
  - split; [| intros [_ ?]; discriminate]. intros H. exfalso.
    destruct (can_be_executed bal o).
    + apply elem_of_app in H as [H | H].
      * destruct tmp as [| t tmp']; cbn in H; [inversion H |].
        apply list_elem_of_singleton in H. discriminate.
      * apply IH in H as [? _]. discriminate.
    + apply IH in H as [H _]. now destruct tmp.
Qed.

Lemma adjacent_deposits_cons (o : Order) (rest : list Order) :
  adjacent_deposits (o :: rest)
  <-> (is_deposit o = true /\ leading_deposit rest) \/ adjacent_deposits rest.
Proof.
  split.
  - intros (before & d1 & d2 & after & E & H1 & H2).
    destruct before as [| b before']; cbn in E; inversion E; subst.
    + left. split; [exact H1 |]. now exists d2, after.
    + right. now exists before', d1, d2, after.
  - intros [[Ho (d & after & -> & Hd)] | (before & d1 & d2 & after & -> & H1 & H2)].
    + now exists [], o, d, after.
    + now exists (o :: before), d1, d2, after.
Qed.

Lemma split_at_deposits_empty (orders : list Order) :
  forall tmp_orders,
    [] ∈ split_at_deposits tmp_orders orders
    <-> (tmp_orders = [] /\ (orders = [] \/ leading_deposit orders))
        \/ adjacent_deposits orders.
Proof.
  induction orders as [| o rest IH]; intros tmp.
  - cbn. rewrite list_elem_of_singleton. split.
    + intros <-. left. auto.
    + intros [[-> _] | (before & d1 & d2 & after & E & _)]; [reflexivity |].
      now destruct before.
  - cbn [split_at_deposits]. rewrite adjacent_deposits_cons.
    destruct (is_deposit o) eqn:D.
    + rewrite elem_of_cons. split.
      * intros [<- | H].
        -- left. split; [reflexivity |]. right. now exists o, rest.
        -- destruct rest as [| r rest']; [inversion H |].
           apply IH in H as [[_ [? | Hl]] | Ha]; [discriminate | |].
           ++ right. left. auto.
           ++ right. right. exact Ha.
      * intros [[-> _] | [[_ Hl] | Ha]]; [now left | |].
        -- right. destruct Hl as (d & after & -> & Hd).
           apply IH. left. split; [reflexivity |]. right. now exists d, after.
        -- right. destruct rest as [| r rest'].
           ++ destruct Ha as (before & ? & ? & ? & E & _). now destruct before.
           ++ apply IH. now right.
    + rewrite IH. split.
      * intros [[H _] | Ha]; [now destruct tmp | right; now right].
      * intros [[_ [Hnil | (d & after & E & Hd)]] | [[Ho _] | Ha]].
        -- discriminate.
        -- inversion E; subst. congruence.
        -- congruence.
        -- now right.
Qed.

(** X18. [parallelize_orders] returns an empty chain exactly when the
    list of orders begins with a deposit or holds two deposits that
    follow each other. *)
Theorem empty_chain_iff_deposit_without_orders (orders : list Order) :
  [] ∈ parallelize_orders bal orders
  <-> leading_deposit orders \/ adjacent_deposits orders.
Proof.
  unfold parallelize_orders.
  rewrite list_elem_of_In, in_flat_map.
  assert (Hgroups : (exists g, In g (between_deposits orders)
                               /\ In [] (split_at_executable bal [] g))
                    <-> [] ∈ between_deposits orders).
  { split.
    - intros (g & Hg & He). apply list_elem_of_In in He.
      apply split_at_executable_empty in He as [_ ->].
      now apply list_elem_of_In.
    - intros H. exists []. split; [now apply list_elem_of_In |].
      apply list_elem_of_In. now apply split_at_executable_empty. }
  rewrite Hgroups. destruct orders as [| o rest].
  - cbn. split; [intros H; inversion H |].
    intros [(d & after & E & _) | (before & ? & ? & ? & E & _)];
      [discriminate | now destruct before].
  - unfold between_deposits. rewrite split_at_deposits_empty. split.
    + intros [[_ [? | Hl]] | Ha]; [discriminate | now left | now right].
    + intros [Hl | Ha]; [left; auto | now right].
Qed.

End Chains.

(** * The scan of a market *)

Section Scan.

Local Open Scope Q_scope.

Lemma keep_highest_inv (solutions : list Solution) :
  forall (seen : list Solution) (acc : Q * option (list Order)),
    (-1 <= acc.1
     /\ (forall s, s ∈ seen -> profit s <= acc.1)
     /\ match acc.2 with
        | None => acc.1 = -1
        | Some os => exists s, s ∈ seen /\ orders s = os
                               /\ profit s = acc.1 /\ -1 < acc.1
        end) ->
    let acc' := fold_left keep_highest solutions acc in
    -1 <= acc'.1
    /\ (forall s, s ∈ seen ++ solutions -> profit s <= acc'.1)
    /\ match acc'.2 with
       | None => acc'.1 = -1
       | Some os => exists s, s ∈ seen ++ solutions /\ orders s = os
                              /\ profit s = acc'.1 /\ -1 < acc'.1
       end.
Proof.
  induction solutions as [| x rest IH]; intros seen acc Hinv.
  - cbn. now rewrite app_nil_r.
  - cbn [fold_left]. replace (seen ++ x :: rest) with ((seen ++ [x]) ++ rest)
      by (now rewrite <- app_assoc).
    apply IH. destruct Hinv as (Hlow & Hmax & Hsol).
    unfold keep_highest.
    destruct (Decimal.ltb acc.1 (profit x)) eqn:E; cbn.
    + apply Decimal_ltb_true in E. split; [| split].
      * apply Qlt_le_weak. now apply Qle_lt_trans with acc.1.
      * intros s Hs. apply elem_of_app in Hs as [Hs | Hs].
        -- apply Qle_trans with acc.1; [now apply Hmax | now apply Qlt_le_weak].
        -- apply list_elem_of_singleton in Hs. subst s. apply Qle_refl.
      * exists x. split; [apply elem_of_app; right; left |].
        split; [reflexivity |]. split; [reflexivity |].
        now apply Qle_lt_trans with acc.1.
    + apply Decimal_ltb_false in E. split; [exact Hlow |]. split.
      * intros s Hs. apply elem_of_app in Hs as [Hs | Hs]; [now apply Hmax |].
        apply list_elem_of_singleton in Hs. now subst s.
      * destruct acc.2 as [os |]; [| exact Hsol].
        destruct Hsol as (s & Hs & Ho & Hp & Hgt).
        exists s. split; [apply elem_of_app; now left | auto].
Qed.

(** X19. [arbitrage_worker] picks, among the solutions of a scan, one
    whose profit is the highest and above -100%; it picks none exactly
    when no solution is above -100%. *)
Theorem highest_solution_is_most_profitable (solutions : list Solution) :
  (forall os,
      highest_solution solutions = Some os ->
      exists s, s ∈ solutions /\ orders s = os /\ -1 < profit s
                /\ forall s', s' ∈ solutions -> profit s' <= profit s)
  /\ (highest_solution solutions = None
      <-> forall s, s ∈ solutions -> profit s <= -1).
Proof.
  unfold highest_solution.
  destruct (keep_highest_inv solutions [] (-1, None)) as (Hlow & Hmax & Hsol).
  { cbn. split; [apply Qle_refl |]. split; [| reflexivity].
    intros s Hs. inversion Hs. }
  cbn [app] in Hmax, Hsol.
  destruct (fold_left keep_highest solutions (-1, None)) as [hp hs].
  cbn in *. split.
  - intros os ->. destruct Hsol as (s & Hs & Ho & Hp & Hgt).
    exists s. rewrite Hp. auto.
  - split.
    + intros ->. now rewrite <- Hsol.
    + intros Hall. destruct hs as [os |]; [| reflexivity].
      destruct Hsol as (s & Hs & _ & Hp & Hgt). exfalso.
      apply (Qlt_irrefl (-1)). apply Qlt_le_trans with hp; [exact Hgt |].
      rewrite <- Hp. now apply Hall.
Qed.


End Scan.


(** * Snapshots of the order book *)

Section Snapshots.

Lemma askHeap_apply_bid_updates (updates : list (Q * Q)) :
  forall m, _askHeap (apply_bid_updates m updates) = _askHeap m.
Proof.
  induction updates as [| u rest IH]; intros m; [reflexivity |].
  cbn. unfold apply_bid_updates in IH. now rewrite IH.
Qed.

Lemma bidHeap_apply_ask_updates (updates : list (Q * Q)) :
  forall m, _bidHeap (apply_ask_updates m updates) = _bidHeap m.
Proof.
  induction updates as [| u rest IH]; intros m; [reflexivity |].
  cbn. unfold apply_ask_updates in IH. now rewrite IH.
Qed.

(** Levels with fresh prices are all pushed. *)
Lemma fold_update_heap_levels (inv : bool) (levels : list (Q * Q)) :
  distinct_levels levels ->
  fold_left (fun h u => update_heap inv h u.1 u.2) levels []
  ≡ₚ (fun u => ScoreItem_init u.1 u.2 inv) <$> levels.
Proof.
  induction levels as [| u levels IH] using rev_ind; [reflexivity |].
  unfold distinct_levels. intros Hnd. rewrite fold_left_app, fmap_app. cbn.
  rewrite fmap_app in Hnd. cbn in Hnd.
  apply NoDup_app in Hnd as (Hnd & Hfresh & _).
  specialize (IH Hnd).
  set (h := fold_left (fun h u => update_heap inv h u.1 u.2) levels []) in *.
  assert (Hnone : find_index h u.1 = None).
  { apply find_index_None. intros x Hx Hp. rewrite IH in Hx.
    apply list_elem_of_fmap in Hx as (v & -> & Hv).
    apply (Hfresh (Qred v.1)).
    - apply list_elem_of_fmap. now exists v.
    - apply list_elem_of_singleton. apply Qred_complete.
      rewrite <- Hp. symmetry. apply get_score_init. }
  unfold update_heap. rewrite Hnone, heappush_perm, IH.
  apply Permutation_cons_append.
Qed.

(** X21. After a depth snapshot whose asks and whose bids have pairwise
    distinct prices, the ladders of the market hold one level for every
    entry of the snapshot, with its price and quantity, and nothing of
    what they held before. *)
Theorem snapshot_replaces_the_book (m : Market) (asks bids : list (Q * Q)) :
  distinct_levels asks -> distinct_levels bids ->
  _askHeap (on_depth_snapshot m asks bids)
  ≡ₚ (fun u => ScoreItem_init u.1 u.2 false) <$> asks
  /\ _bidHeap (on_depth_snapshot m asks bids)
     ≡ₚ (fun u => ScoreItem_init u.1 u.2 true) <$> bids.
Proof.
  intros Hasks Hbids. unfold on_depth_snapshot. split.
  - rewrite askHeap_apply_bid_updates, askHeap_apply_ask_updates.
    now apply fold_update_heap_levels.
  - rewrite bidHeap_apply_bid_updates.
    rewrite bidHeap_apply_ask_updates. cbn [reset_prices set_bidHeap _bidHeap].
    now apply fold_update_heap_levels.
Qed.

(** X22. A [ScoreItem] gives back the score and the item it was built
    with, and [__lt__] compares the prices of two items the usual way
    round, or the other way round when they are inversed: a heap of
    inversed items has the highest price on top. *)
Theorem ScoreItem_keeps_score_and_orders (s1 i1 s2 i2 : Q) :
  (get_score (ScoreItem_init s1 i1 true) == s1)%Q
  /\ (get_score (ScoreItem_init s1 i1 false) == s1)%Q
  /\ get_item (ScoreItem_init s1 i1 true) = i1
  /\ get_item (ScoreItem_init s1 i1 false) = i1
  /\ (ScoreItem_lt (ScoreItem_init s1 i1 false) (ScoreItem_init s2 i2 false)
      = true <-> (s1 < s2)%Q)
  /\ (ScoreItem_lt (ScoreItem_init s1 i1 true) (ScoreItem_init s2 i2 true)
      = true <-> (s2 < s1)%Q).
Proof.
  split; [apply get_score_init |]. split; [apply get_score_init |].
  split; [reflexivity |]. split; [reflexivity |].
  split; [apply ScoreItem_lt_true |].
  rewrite ScoreItem_lt_true. cbn. rewrite !Qred_correct.
  split; intros H.
  - apply Qopp_lt_compat in H. now rewrite !Qopp_involutive in H.
  - now apply Qopp_lt_compat.
Qed.

End Snapshots.

Lemma snapshot_replaces_the_book_witness :
  _askHeap (on_depth_snapshot
              (apply_ask_updates empty_market [(9, 4)]%Q)
              [(8, 1); (6, 2)]%Q [(3, 1); (5, 2)]%Q)
  ≡ₚ [ScoreItem_init 8 1 false; ScoreItem_init 6 2 false].
Proof.
  apply (snapshot_replaces_the_book
           (apply_ask_updates empty_market [(9, 4)]%Q)
           [(8, 1); (6, 2)]%Q [(3, 1); (5, 2)]%Q).
  - unfold distinct_levels. cbn.
    repeat constructor; [| intros H; inversion H].
    intros H. apply list_elem_of_singleton in H. discriminate.
  - unfold distinct_levels. cbn.
    repeat constructor; [| intros H; inversion H].
    intros H. apply list_elem_of_singleton in H. discriminate.
Defined.

(** * Solving an order for its target amount *)

Section TargetAmountRoundTrip.

Local Open Scope Q_scope.



End TargetAmountRoundTrip.


(** * The revision of [Arbitrage.arbitrage_helper] *)

Section ArbitrageRevision.

Local Open Scope Q_scope.



End ArbitrageRevision.

